(** * BaseRepository: a CRUD helper over a single SQL table

    Shallow embedding of [src/BaseRepository.ts].  The repository class is a
    thin layer: each method builds one query with the Kysely query builder and
    awaits its execution.  The embedding therefore has three layers:

    - [JS]: the JavaScript values, objects and numbers the methods handle;
    - [Kysely]: the query builder and the table it runs against;
    - [BaseRepository]: the methods, written query for query as in the source.

    Conventions.  A table is the list of its rows in storage order, and a
    query without ORDER BY returns rows in that order.  Numbers that the
    source passes around as counts, pages and page sizes are exact (integers
    and rationals), without the rounding of doubles.  [new Date()] and
    [randomUUID()] are reads of the environment and appear as arguments. *)

From Stdlib Require Import ZArith QArith Qround Ascii String DecimalString DecimalNat Lia.
From stdpp Require Import base option list gmap strings fin_maps.

Local Open Scope string_scope.
Local Open Scope list_scope.
Local Open Scope Z_scope.

(* ===================================================================== *)
(** ** JavaScript values *)
(* ===================================================================== *)

Module JS.

(** The values stored in objects: a [Date] is its epoch time in ms. *)
Inductive value :=
| VUndefined
| VNull
| VBool (b : bool)
| VNum (n : Z)
| VStr (s : string)
| VDate (t : Z).

#[export] Instance value_eq_dec : EqDecision value.
Proof. solve_decision. Defined.

(** An object is a finite map from keys to values.  A key may be present
    with the value [undefined]; that differs from the key being absent. *)
Abbreviation obj := (gmap string value).

(** [o.key]: reading an absent key gives [undefined]. *)
Definition get_prop (o : obj) (key : string) : value :=
  default VUndefined (o !! key).

(** [{ ...a, ...b }]: the keys of [b] win. *)
Definition spread (a b : obj) : obj := b ∪ a.

(** [v === undefined || v === null] *)
Definition nullish (v : value) : bool :=
  match v with
  | VUndefined | VNull => true
  | _ => false
  end.

(** [a ?? b] on a property read. *)
Definition nullish_coalesce (a : option value) (b : value) : value :=
  match a with
  | Some v => if nullish v then b else v
  | None => b
  end.

(** Numbers: the rationals, the two infinities and NaN. *)
Inductive number :=
| Num (q : Q)
| Infinity
| NegInfinity
| NaN.

Definition of_Z (z : Z) : number := Num (inject_Z z).

(** [a / b], with division by zero as in IEEE arithmetic. *)
Definition num_div (a b : number) : number :=
  match a, b with
  | Num x, Num y =>
      if Qeq_bool y 0 then
        (if Qeq_bool x 0 then NaN
         else if Qle_bool 0 x then Infinity else NegInfinity)
      else Num (x / y)
  | Num _, (Infinity | NegInfinity) => Num 0
  | Infinity, Num y => if Qle_bool 0 y then Infinity else NegInfinity
  | NegInfinity, Num y => if Qle_bool 0 y then NegInfinity else Infinity
  | _, _ => NaN
  end.

(** [Math.ceil] *)
Definition Math_ceil (a : number) : number :=
  match a with
  | Num x => of_Z (Qceiling x)
  | other => other
  end.

(** Decimal digits. *)
Definition digit_of (c : ascii) : option Z :=
  let n := Z.of_N (N_of_ascii c) in
  if (48 <=? n) && (n <=? 57) then Some (n - 48) else None.

Definition is_space (c : ascii) : bool :=
  let n := N_of_ascii c in
  ((n =? 32) || ((9 <=? n) && (n <=? 13)))%N.

Fixpoint skip_spaces (s : string) : string :=
  match s with
  | String c rest => if is_space c then skip_spaces rest else s
  | EmptyString => s
  end.

(** The longest prefix of decimal digits; [acc] is [None] until a digit
    has been read. *)
Fixpoint parse_digits (s : string) (acc : option Z) : option Z :=
  match s with
  | String c rest =>
      match digit_of c with
      | Some d => parse_digits rest (Some (10 * default 0 acc + d))
      | None => acc
      end
  | EmptyString => acc
  end.

(** [parseInt(s, 10)]: leading white space, an optional sign, then digits;
    [NaN] when no digit follows. *)
Definition parseInt (s : string) : number :=
  let magnitude (negative : bool) (digits : string) :=
    match parse_digits digits None with
    | Some n => of_Z (if negative then - n else n)
    | None => NaN
    end in
  match skip_spaces s with
  | String "-"%char rest => magnitude true rest
  | String "+"%char rest => magnitude false rest
  | rest => magnitude false rest
  end.

(** The decimal text of a natural number. *)
Definition decimal (n : nat) : string :=
  NilZero.string_of_uint (Nat.to_uint n).

(** [v.toString()] for the values that have a numeric reading; a [Date]
    prints as calendar text, which starts with a weekday name. *)
Definition toString (v : value) : string :=
  match v with
  | VStr s => s
  | VNum n => NilZero.string_of_int (Z.to_int n)
  | VBool true => "true"
  | VBool false => "false"
  | VNull => "null"
  | VUndefined => "undefined"
  | VDate _ => "Date"
  end.

End JS.

Export JS.

(* ===================================================================== *)
(** ** The query builder and the table *)
(* ===================================================================== *)

Module Kysely.

(** The query builder and the relational store are external to the
    repository.  This module states what the calls made by [BaseRepository]
    do: one table, conjunctions of WHERE conditions, LIMIT and OFFSET,
    [selectAll], a COUNT selection, INSERT, UPDATE and DELETE with
    RETURNING, and the constraints that [createTable] declares (primary key
    [id], NOT NULL time stamps).  Columns are untyped and a column absent
    from a row reads as NULL. *)

(** A table: its rows, in storage order. *)
Abbreviation Table := (list obj).

Inductive error :=
| NoResultError        (* executeTakeFirstOrThrow found no row *)
| ConstraintViolation  (* primary key or NOT NULL *)
| QueryError           (* the statement is rejected by the database *)
| TypeError.           (* destructuring [undefined] *)

Inductive result (A : Type) :=
| Ok (a : A)
| Err (e : error).
Arguments Ok {A} a.
Arguments Err {A} e.

(** An awaited computation: runs against the table and leaves a table. *)
Definition Async (A : Type) : Type := Table → result A * Table.

Definition ret {A} (a : A) : Async A := λ t, (Ok a, t).
Definition throw {A} (e : error) : Async A := λ t, (Err e, t).
Definition bind {A B} (m : Async A) (k : A → Async B) : Async B :=
  λ t, match m t with
       | (Ok a, t') => k a t'
       | (Err e, t') => (Err e, t')
       end.

Inductive QueryKind := SelectQuery | InsertQuery | UpdateQuery | DeleteQuery.

Inductive Selection :=
| SelectAll    (* selectAll() *)
| CountStar.   (* select of the row count, under the name count *)

#[export] Instance Selection_eq_dec : EqDecision Selection.
Proof. solve_decision. Defined.

(** The query node a builder carries. *)
Record Query := mkQuery {
  q_kind : QueryKind;
  q_selections : list Selection;
  q_wheres : list (obj → bool);
  q_limit : option Z;
  q_offset : option Z;
  q_values : list obj;
  q_set : obj;
  q_returning : bool;
}.

Definition blank (kind : QueryKind) : Query :=
  mkQuery kind [] [] None None [] ∅ false.

Definition selectFrom : Query := blank SelectQuery.
Definition insertInto : Query := blank InsertQuery.
Definition updateTable : Query := blank UpdateQuery.
Definition deleteFrom : Query := blank DeleteQuery.

Definition select (s : Selection) (q : Query) : Query :=
  mkQuery (q_kind q) (q_selections q ++ [s]) (q_wheres q) (q_limit q)
          (q_offset q) (q_values q) (q_set q) (q_returning q).

Definition selectAll : Query → Query := select SelectAll.

(** [where(expression)]: conditions accumulate and are ANDed. *)
Definition where_ (p : obj → bool) (q : Query) : Query :=
  mkQuery (q_kind q) (q_selections q) (q_wheres q ++ [p]) (q_limit q)
          (q_offset q) (q_values q) (q_set q) (q_returning q).

(** SQL [column = value]: unknown, hence not satisfied, when either side
    is NULL.  An [undefined] parameter is sent as NULL. *)
Definition sql_eq (cell : option value) (v : value) : bool :=
  match cell with
  | Some c => negb (nullish c) && negb (nullish v) && bool_decide (c = v)
  | None => false
  end.

(** [where(key, "=", value)] *)
Definition where_eq (key : string) (v : value) : Query → Query :=
  where_ (λ r, sql_eq (r !! key) v).

Definition limit (n : Z) (q : Query) : Query :=
  mkQuery (q_kind q) (q_selections q) (q_wheres q) (Some n)
          (q_offset q) (q_values q) (q_set q) (q_returning q).

Definition offset (n : Z) (q : Query) : Query :=
  mkQuery (q_kind q) (q_selections q) (q_wheres q) (q_limit q)
          (Some n) (q_values q) (q_set q) (q_returning q).

Definition values (rows : list obj) (q : Query) : Query :=
  mkQuery (q_kind q) (q_selections q) (q_wheres q) (q_limit q)
          (q_offset q) rows (q_set q) (q_returning q).

Definition set (assignments : obj) (q : Query) : Query :=
  mkQuery (q_kind q) (q_selections q) (q_wheres q) (q_limit q)
          (q_offset q) (q_values q) assignments (q_returning q).

Definition returningAll (q : Query) : Query :=
  mkQuery (q_kind q) (q_selections q) (q_wheres q) (q_limit q)
          (q_offset q) (q_values q) (q_set q) true.

(** A row satisfies the WHERE clause when it satisfies every condition. *)
Definition matches (q : Query) (r : obj) : bool :=
  forallb (λ p, p r) (q_wheres q).

(** Keys whose value is [undefined] are left out of INSERT and UPDATE. *)
Definition defined (o : obj) : obj :=
  filter (λ kv, kv.2 ≠ VUndefined) o.

(** [UPDATE ... SET]: the assigned columns replace the row's. *)
Definition assign (assignments r : obj) : obj := defined assignments ∪ r.

(** The primary key of a row. *)
Definition key (r : obj) : value := get_prop r "id".

Definition keys (t : Table) : list value := key <$> t.

(** NOT NULL on [id] (which has no default), [createdAt], [updatedAt]. *)
Definition not_null (r : obj) : bool :=
  negb (nullish (key r))
  && negb (bool_decide (r !! "createdAt" = Some VNull))
  && negb (bool_decide (r !! "updatedAt" = Some VNull)).

(** Rows [written] may join the rows [kept] when they respect NOT NULL and
    the primary key stays unique. *)
Definition admissible (written kept : Table) : bool :=
  forallb not_null written
  && bool_decide (NoDup (keys written))
  && forallb (λ k, bool_decide (k ∉ keys kept)) (keys written).

Definition negative (n : option Z) : bool :=
  match n with
  | Some z => z <? 0
  | None => false
  end.

(** LIMIT and OFFSET; a negative one is rejected. *)
Definition window (q : Query) (rows : list obj) : result (list obj) :=
  if negative (q_limit q) || negative (q_offset q) then Err QueryError
  else
    let rest := drop (Z.to_nat (default 0 (q_offset q))) rows in
    Ok (match q_limit q with
        | Some n => take (Z.to_nat n) rest
        | None => rest
        end).

(** The result rows of a SELECT over the rows that matched.  An aggregate
    next to [*] needs a GROUP BY, which no query here has. *)
Definition project (q : Query) (matched : list obj) : result (list obj) :=
  let counting := existsb (λ s, bool_decide (s = CountStar)) (q_selections q) in
  let starring := existsb (λ s, bool_decide (s = SelectAll)) (q_selections q) in
  if counting && starring then Err QueryError
  else if counting then
    Ok [ {[ "count" := VStr (decimal (length matched)) ]} ]
  else if starring then Ok matched
  else Ok ((λ _, ∅) <$> matched).

Definition returned (q : Query) (rows : list obj) : list obj :=
  if q_returning q then rows else [].

Definition windowed (q : Query) : bool :=
  bool_decide (q_limit q ≠ None) || bool_decide (q_offset q ≠ None).

(** Modelled from the spec: [execute()], that is the query builder handing
    the statement to the database and the database running it; both are
    external libraries and not in the sources.  A SELECT returns the window
    of the projected matching rows; an INSERT appends its rows, or fails as a
    whole; an UPDATE rewrites the matching rows, or fails as a whole; a
    DELETE removes the matching rows.  PostgreSQL has no LIMIT or OFFSET on
    UPDATE and DELETE, and no INSERT without rows.  The database does not
    fix the order in which a table yields its rows; the list keeps a
    rewritten row where it was, which is one such order, so what is stated
    of the rows after an UPDATE is meant up to their order. *)
Definition execute (q : Query) : Async (list obj) := λ t,
  match q_kind q with
  | SelectQuery =>
      match project q (filter (λ r, matches q r = true) t) with
      | Ok rows => (window q rows, t)
      | Err e => (Err e, t)
      end
  | InsertQuery =>
      let written := defined <$> q_values q in
      if bool_decide (written = []) then (Err QueryError, t)
      else if admissible written t then (Ok (returned q written), t ++ written)
      else (Err ConstraintViolation, t)
  | UpdateQuery =>
      let hit := filter (λ r, matches q r = true) t in
      let kept := filter (λ r, matches q r ≠ true) t in
      let written := assign (q_set q) <$> hit in
      if windowed q then (Err QueryError, t)
      else if admissible written kept then
        (Ok (returned q written),
         (λ r, if matches q r then assign (q_set q) r else r) <$> t)
      else (Err ConstraintViolation, t)
  | DeleteQuery =>
      if windowed q then (Err QueryError, t)
      else (Ok (returned q (filter (λ r, matches q r = true) t)),
            filter (λ r, matches q r ≠ true) t)
  end.

(** [executeTakeFirst()] *)
Definition executeTakeFirst (q : Query) : Async (option obj) :=
  bind (execute q) (λ rows, ret (head rows)).

(** [executeTakeFirstOrThrow()] *)
Definition executeTakeFirstOrThrow (q : Query) : Async obj :=
  bind (execute q) (λ rows,
    match head rows with
    | Some r => ret r
    | None => throw NoResultError
    end).

End Kysely.

Export Kysely.

Notation "'let!' x ':=' m 'in' k" := (bind m (λ x, k))
  (at level 10, x name, m at level 100, k at level 200, only parsing).

(* ===================================================================== *)
(** ** The repository *)
(* ===================================================================== *)

Module BaseRepository.

(** A search condition: an object of exact-match values, or a callback
    that receives the query under construction and returns a query. *)
Inductive Condition :=
| Filter (o : obj)
| Callback (f : Query → Query).

(** [Object.entries(o)] *)
Definition entries (o : obj) : list (string * value) := map_to_list o.

(** The branch shared by every method that takes a condition:
<<
    if (typeof condition === "function") op = condition(op);
    else for (const [key, value] of Object.entries(condition))
           op = op.where(key, "=", value);
>> *)
Definition applyCondition (condition : Condition) (op : Query) : Query :=
  match condition with
  | Callback f => f op
  | Filter o => foldl (λ op kv, where_eq kv.1 kv.2 op) op (entries o)
  end.

(** [this.select()] *)
Definition select_ : Query := selectFrom.

(** The values object that [insert] and [insertAll] build:
    [{ id: randomUUID(), ...item, createdAt: now, updatedAt: now }]. *)
Definition insert_values (now : Z) (uuid : string) (item : obj) : obj :=
  <["updatedAt" := VDate now]>
    (<["createdAt" := VDate now]>
       (spread {[ "id" := VStr uuid ]} item)).

(** [insert(item)]; [now] is [new Date()] and [uuid] is [randomUUID()]. *)
Definition insert (now : Z) (uuid : string) (item : obj) : Async (option obj) :=
  let! rows :=
    execute (returningAll (values [insert_values now uuid item] insertInto)) in
  ret (head rows).

(** [insertAll(items)]; [uuid i] is the [randomUUID()] drawn for the item
    at index [i]. *)
Definition insertAll (now : Z) (uuid : nat → string) (items : list obj)
  : Async (list obj) :=
  execute
    (returningAll
       (values (imap (λ i item, insert_values now (uuid i) item) items)
               insertInto)).

Definition findOneBy (condition : Condition) : Async (option obj) :=
  let op := selectAll select_ in
  let op := applyCondition condition op in
  executeTakeFirst op.

(** [count(condition)] *)
Definition count (condition : Condition) : Async number :=
  let op := select_ in
  let op := applyCondition condition op in
  let op := select CountStar op in
  let! first := executeTakeFirst op in
  match first with
  | Some r =>
      ret (parseInt (toString (nullish_coalesce (r !! "count") (VStr "0"))))
  | None => throw TypeError
  end.

Record Page := mkPage {
  data : list obj;
  page : Z;
  pageCount : number;
  pageSize : Z;
  rowCount : number;
}.

(** [findAllPaginated(page, pageSize, condition)] *)
Definition findAllPaginated (page pageSize : Z) (condition : Condition)
  : Async Page :=
  let! rowCount := count condition in
  let op := selectAll select_ in
  let op := applyCondition condition op in
  let! result := execute (offset ((page - 1) * pageSize) (limit pageSize op)) in
  ret {| data := result;
         page := page;
         pageCount := Math_ceil (num_div rowCount (of_Z pageSize));
         pageSize := pageSize;
         rowCount := rowCount |}.

Definition findAll : Async (list obj) :=
  execute (selectAll select_).

Definition findBy (condition : Condition) : Async (list obj) :=
  let op := selectAll select_ in
  let op := applyCondition condition op in
  execute op.

Definition get (id : value) : Async (option obj) :=
  executeTakeFirst (where_eq "id" id (selectAll select_)).

(** [update(item)]; [now] is the [new Date()] of the call. *)
Definition update (now : Z) (item : obj) : Async obj :=
  executeTakeFirstOrThrow
    (returningAll
       (set (<["updatedAt" := VDate now]> item)
            (where_eq "id" (get_prop item "id") updateTable))).

Definition delete (id : value) : Async obj :=
  executeTakeFirstOrThrow (returningAll (where_eq "id" id deleteFrom)).

Definition deleteBy (condition : Condition) : Async (list obj) :=
  let op := deleteFrom in
  let op := applyCondition condition op in
  execute (returningAll op).

Definition truncate : Async unit :=
  let! _ := execute deleteFrom in
  ret ().

End BaseRepository.

Export BaseRepository.

(* ===================================================================== *)
(** ** Vocabulary of the properties *)
(* ===================================================================== *)

(** A row matches an object of exact-match values when every pair of the
    object holds of the row, as an SQL equality. *)
Definition exact_match (o : obj) (r : obj) : bool :=
  bool_decide (map_Forall (λ k v, sql_eq (r !! k) v = true) o).

(** [q'] is [q] up to its WHERE clause. *)
Definition same_shape (q q' : Query) : Prop :=
  q_kind q' = q_kind q
  ∧ q_selections q' = q_selections q
  ∧ q_limit q' = q_limit q
  ∧ q_offset q' = q_offset q
  ∧ q_values q' = q_values q
  ∧ q_set q' = q_set q
  ∧ q_returning q' = q_returning q.

(** A query transformer that only narrows the WHERE clause, by the row
    predicate [p]. *)
Definition narrows (f : Query → Query) (p : obj → bool) : Prop :=
  ∀ q, same_shape q (f q) ∧ ∀ r, matches (f q) r = matches q r && p r.

(** The rows that match a condition: [p] is the row predicate that the
    condition stands for.  An object stands for its exact matches; a callback
    stands for [p] when all it does to a query is to narrow it by [p]. *)
Definition denotes (c : Condition) (p : obj → bool) : Prop :=
  match c with
  | Filter o => ∀ r, p r = exact_match o r
  | Callback f => narrows f p
  end.

(** The rows of a table that satisfy, or fail, a row predicate. *)
Definition selected (p : obj → bool) (t : Table) : Table :=
  filter (λ r, p r = true) t.

Definition rejected (p : obj → bool) (t : Table) : Table :=
  filter (λ r, p r ≠ true) t.

(** The row carries the given id, in the sense of the WHERE clause of
    [get], [update] and [delete]. *)
Definition has_id (id : value) (r : obj) : bool := sql_eq (r !! "id") id.

(** A table that respects the constraints of [createTable]. *)
Definition consistent (t : Table) : Prop :=
  Forall (λ r, not_null r = true) t ∧ NoDup (keys t).

(** The id that an inserted item ends up with: its own if it has the key,
    the drawn UUID otherwise. *)
Definition chosen_id (uuid : string) (item : obj) : value :=
  default (VStr uuid) (item !! "id").

(** The [data] of one page, for reading several pages of one table. *)
Definition page_data (pageSize : Z) (condition : Condition) (t : Table)
    (page : nat) : list obj :=
  match findAllPaginated (Z.of_nat page) pageSize condition t with
  | (Ok pg, _) => data pg
  | (Err _, _) => []
  end.

(** The callback of the test suite: [item => item.where("value", ">=", 5)]. *)
Definition value_at_least (n : Z) (r : obj) : bool :=
  match r !! "value" with
  | Some (VNum v) => n <=? v
  | _ => false
  end.

(** [await expect(m).rejects]: the outcome of [m], as a value. *)
Definition attempt {A} (m : Async A) : Async (result A) :=
  λ t, let '(outcome, t') := m t in (Ok outcome, t').

(** A record as the list of its fields, for comparing records. *)
Definition fields (r : obj) : list (string * value) := map_to_list r.

Definition outcome_fields (o : result obj) : result (list (string * value)) :=
  match o with
  | Ok r => Ok (fields r)
  | Err e => Err e
  end.

(** The field of the record that a call returns. *)
Definition returned_field (k : string) (o : result obj * Table)
  : option value :=
  match o.1 with
  | Ok r => r !! k
  | Err _ => None
  end.

(** The first test of the suite, "inserts, finds, updates and deletes
    objects", with the clock at 1000 for the insertion and at 1010 for the
    update.  It returns what the test inspects. *)
Definition scenario_crud (uuid : string) :=
  let! before := findAll in
  let! inserted := insert 1000 uuid {[ "name" := VStr "foo" ]} in
  let! after_insert := findAll in
  let! updated := update 1010 {[ "id" := VStr uuid; "name" := VStr "bar" ]} in
  let! after_update := findAll in
  let! bars := findBy (Filter {[ "name" := VStr "bar" ]}) in
  let! bar := findOneBy (Filter {[ "name" := VStr "bar" ]}) in
  let! got := get (VStr uuid) in
  let! foos := findBy (Filter {[ "name" := VStr "foo" ]}) in
  let! counted := count (Filter ∅) in
  let! deleted := delete (VStr uuid) in
  let! after_delete := findAll in
  let! counted_after := count (Filter ∅) in
  let! update_again :=
    attempt (update 1020 {[ "id" := VStr uuid; "name" := VStr "baz" ]}) in
  let! delete_again := attempt (delete (VStr uuid)) in
  ret (fields <$> before, fields <$> inserted, fields <$> after_insert,
       fields updated, fields <$> after_update, fields <$> bars,
       fields <$> bar, fields <$> got, fields <$> foos, counted,
       fields deleted, fields <$> after_delete, counted_after,
       outcome_fields update_again, outcome_fields delete_again).

(** The third test of the suite, "inserts and deletes many", with four
    objects in place of ten. *)
Definition scenario_many (uuid : nat → string) :=
  let! inserted :=
    insertAll 2000 uuid
      [ {[ "value" := VNum 0 ]}; {[ "value" := VNum 1 ]};
        {[ "value" := VNum 2 ]}; {[ "value" := VNum 3 ]} ] in
  let! deleted := deleteBy (Callback (where_ (value_at_least 2))) in
  let! left := findAll in
  let! more_deleted := deleteBy (Filter {[ "value" := VNum 0 ]}) in
  let! left_after := findAll in
  let! _ := truncate in
  let! at_end := findAll in
  ret (fields <$> inserted, fields <$> deleted, fields <$> left,
       fields <$> more_deleted, fields <$> left_after, fields <$> at_end).

(** The ids drawn in the scenarios. *)
Definition drawn (i : nat) : string :=
  match i with
  | 0%nat => "id-0"
  | 1%nat => "id-1"
  | 2%nat => "id-2"
  | _ => "id-3"
  end.

(* ===================================================================== *)
(** ** Vocabulary of the further properties *)
(* ===================================================================== *)

(** The time stamps of a row are dates, in order and not after [now]. *)
Definition stamped (now : Z) (r : obj) : Prop :=
  ∃ c u, r !! "createdAt" = Some (VDate c)
         ∧ r !! "updatedAt" = Some (VDate u)
         ∧ c <= u <= now.

(** A caller's loop over [insert], one [await] after the other:
    [for (const item of items) out.push(await repo.insert(item))];
    [uuid i] is the [randomUUID()] of the call at index [i]. *)
Fixpoint insert_each (now : Z) (uuid : nat → string) (items : list obj)
  : Async (list (option obj)) :=
  match items with
  | [] => ret []
  | item :: rest =>
      let! first := insert now (uuid 0%nat) item in
      let! others := insert_each now (λ i, uuid (S i)) rest in
      ret (first :: others)
  end.

(** An item without the two time stamp keys. *)
Definition without_stamps (item : obj) : obj :=
  base.delete "createdAt" (base.delete "updatedAt" item).

(* ===================================================================== *)
(** ** Facts about numbers and their decimal text *)
(* ===================================================================== *)

Section Numbers.

Ltac read_digit :=
  lazymatch goal with
  | |- context [digit_of ?c] =>
      let v := eval vm_compute in (digit_of c) in
      change (digit_of c) with v; cbv iota
  end.

Lemma tail_mul_ten (a : nat) :
  Z.of_nat (Nat.tail_mul 10 a) = 10 * Z.of_nat a.
Proof. rewrite Nat.tail_mul_spec. lia. Qed.

(** Reading back the digits of [d] after digits worth [a]. *)
Lemma parse_digits_uint (d : Decimal.uint) (a : nat) :
  parse_digits (NilEmpty.string_of_uint d) (Some (Z.of_nat a))
  = Some (Z.of_nat (Nat.of_uint_acc d a)).
Proof.
  revert a.
  induction d as [|d IH|d IH|d IH|d IH|d IH|d IH|d IH|d IH|d IH|d IH];
    intros a; [reflexivity|..];
    cbn [NilEmpty.string_of_uint parse_digits Nat.of_uint_acc default];
    read_digit; rewrite <- IH; do 2 f_equal;
    unfold id; rewrite ?Nat2Z.inj_succ, tail_mul_ten; lia.
Qed.

Lemma parse_digits_decimal (n : nat) :
  parse_digits (decimal n) None = Some (Z.of_nat n).
Proof.
  unfold decimal.
  rewrite <- (DecimalNat.Unsigned.of_to n) at 2.
  unfold Nat.of_uint.
  destruct (Nat.to_uint n) as [|d|d|d|d|d|d|d|d|d|d];
    [reflexivity|..];
    cbn [NilZero.string_of_uint NilEmpty.string_of_uint parse_digits
         Nat.of_uint_acc default];
    read_digit;
    match goal with
    | |- parse_digits _ (Some ?z) = Some (Z.of_nat (Nat.of_uint_acc _ ?k)) =>
        replace z with (Z.of_nat k) by (unfold id; cbn; lia)
    end; apply parse_digits_uint.
Qed.

(** The decimal text of a count starts with a digit. *)
Lemma skip_spaces_decimal (n : nat) : skip_spaces (decimal n) = decimal n.
Proof.
  unfold decimal.
  destruct (Nat.to_uint n); reflexivity.
Qed.

(** [parseInt] reads back the count that the database prints. *)
Lemma parseInt_decimal (n : nat) : parseInt (decimal n) = of_Z (Z.of_nat n).
Proof.
  unfold parseInt. rewrite skip_spaces_decimal.
  pose proof (parse_digits_decimal n) as H.
  unfold decimal in *.
  destruct (Nat.to_uint n); cbn in *; rewrite ?H; try reflexivity.
Qed.

(** [Math.ceil(a / b)] for integers [a] and [b >= 1] is the least integer
    [c] with [a <= c * b]. *)
Lemma ceil_div_spec (a b : Z) :
  1 <= b →
  ∃ c, Math_ceil (num_div (of_Z a) (of_Z b)) = of_Z c
       ∧ (c - 1) * b < a <= c * b.
Proof.
  intros Hb.
  destruct b as [|p|p]; try lia.
  exists (- ((- a) / Z.pos p)). split.
  - unfold num_div, of_Z.
    replace (Qeq_bool (inject_Z (Z.pos p)) 0) with false by reflexivity.
    unfold Math_ceil, of_Z, Qceiling, Qfloor, Qdiv, Qmult, Qinv, Qopp, inject_Z.
    cbn [Qnum Qden].
    rewrite Z.mul_1_r, Pos.mul_1_l. reflexivity.
  - pose proof (Z.div_mod (- a) (Z.pos p) ltac:(lia)) as Hdm.
    pose proof (Z.mod_pos_bound (- a) (Z.pos p) ltac:(lia)) as Hm.
    nia.
Qed.

End Numbers.

(* ===================================================================== *)
(** ** Facts about queries *)
(* ===================================================================== *)

Section Queries.

Implicit Types (q : Query) (r : obj) (t : Table) (p : obj → bool).

Lemma same_shape_refl q : same_shape q q.
Proof. repeat split. Qed.

Lemma same_shape_trans q1 q2 q3 :
  same_shape q1 q2 → same_shape q2 q3 → same_shape q1 q3.
Proof. unfold same_shape. intuition congruence. Qed.

Lemma same_shape_where_ p q : same_shape q (where_ p q).
Proof. repeat split. Qed.

Lemma matches_where_ p q r : matches (where_ p q) r = matches q r && p r.
Proof.
  unfold matches, where_; cbn.
  rewrite forallb_app; cbn. now rewrite andb_true_r.
Qed.

Lemma narrows_where_ p : narrows (where_ p) p.
Proof. intros q. split; [apply same_shape_where_ | apply matches_where_]. Qed.

(** The loop over the entries of an exact-match object. *)
Lemma foldl_where_eq (l : list (string * value)) q :
  same_shape q (foldl (λ op kv, where_eq kv.1 kv.2 op) q l)
  ∧ ∀ r, matches (foldl (λ op kv, where_eq kv.1 kv.2 op) q l) r
         = matches q r && forallb (λ kv, sql_eq (r !! kv.1) kv.2) l.
Proof.
  revert q. induction l as [|[k v] l IH]; intros q; cbn [foldl].
  - split; [apply same_shape_refl|]. intros r; cbn. now rewrite andb_true_r.
  - destruct (IH (where_eq k v q)) as [Hs Hm]. split.
    + eapply same_shape_trans; [apply same_shape_where_ | exact Hs].
    + intros r. rewrite Hm. unfold where_eq. rewrite matches_where_.
      cbn. now rewrite andb_assoc.
Qed.

Lemma forallb_entries (o : obj) r :
  forallb (λ kv, sql_eq (r !! kv.1) kv.2) (entries o) = exact_match o r.
Proof.
  unfold exact_match, entries.
  apply eq_true_iff_eq. rewrite bool_decide_eq_true.
  rewrite map_Forall_to_list.
  induction (map_to_list o) as [|[k v] l IH]; cbn.
  - split; auto.
  - rewrite andb_true_iff, Forall_cons, IH. reflexivity.
Qed.

Lemma denotes_Filter (o : obj) : denotes (Filter o) (exact_match o).
Proof. intros r. reflexivity. Qed.

Lemma denotes_Callback_where_ p : denotes (Callback (where_ p)) p.
Proof. apply narrows_where_. Qed.

(** Whatever the form of the condition, applying it narrows the query by
    the predicate it stands for. *)
Lemma narrows_applyCondition (c : Condition) p :
  denotes c p → narrows (applyCondition c) p.
Proof.
  destruct c as [o|f]; cbn; intros H; [|exact H].
  intros q. destruct (foldl_where_eq (entries o) q) as [Hs Hm].
  split; [exact Hs|]. intros r.
  now rewrite Hm, forallb_entries, H.
Qed.

End Queries.

(* ===================================================================== *)
(** ** What each method computes *)
(* ===================================================================== *)

Section Methods.

Implicit Types (q : Query) (r : obj) (t : Table) (p : obj → bool)
               (c : Condition).

(** The rows a narrowed query matches. *)
Lemma matched_selected q p t :
  (∀ r, matches q r = p r) →
  filter (λ r, matches q r = true) t = selected p t.
Proof. intros H. apply list_filter_iff. intros r. now rewrite H. Qed.

Lemma unmatched_rejected q p t :
  (∀ r, matches q r = p r) →
  filter (λ r, matches q r ≠ true) t = rejected p t.
Proof. intros H. apply list_filter_iff. intros r. now rewrite H. Qed.

Lemma selected_all p t : (∀ r, p r = true) → selected p t = t.
Proof.
  intros H. unfold selected. induction t as [|r t IH]; [reflexivity|].
  rewrite filter_cons_True by apply H. now rewrite IH.
Qed.

Lemma rejected_all p t : (∀ r, p r = true) → rejected p t = [].
Proof.
  intros H. unfold rejected. induction t as [|r t IH]; [reflexivity|].
  rewrite filter_cons_False by (intros Hn; apply Hn, H). exact IH.
Qed.

Lemma selected_none p t : (∀ r, r ∈ t → p r = false) → selected p t = [].
Proof.
  intros H. unfold selected. induction t as [|r t IH]; [reflexivity|].
  rewrite filter_cons_False.
  - apply IH. intros r' Hr'. apply H. now right.
  - rewrite (H r) by now left. discriminate.
Qed.

Lemma rejected_none p t : (∀ r, r ∈ t → p r = false) → rejected p t = t.
Proof.
  intros H. unfold rejected. induction t as [|r t IH]; [reflexivity|].
  rewrite filter_cons_True.
  - f_equal. apply IH. intros r' Hr'. apply H. now right.
  - rewrite (H r) by now left. discriminate.
Qed.

Lemma project_count q (rows : list obj) :
  q_selections q = [CountStar] →
  project q rows = Ok [ {[ "count" := VStr (decimal (length rows)) ]} ].
Proof. unfold project. intros ->. reflexivity. Qed.

Lemma project_all q (rows : list obj) :
  q_selections q = [SelectAll] → project q rows = Ok rows.
Proof. unfold project. intros ->. reflexivity. Qed.

(** A SELECT of all columns returns the window of the selected rows. *)
Lemma execute_select q p t :
  q_kind q = SelectQuery → q_selections q = [SelectAll] →
  (∀ r, matches q r = p r) →
  execute q t = (window q (selected p t), t).
Proof.
  intros Hk Hs Hm. unfold execute. rewrite Hk.
  now rewrite (project_all q _ Hs), (matched_selected q p t Hm).
Qed.

Lemma execute_selectAll c p t :
  denotes c p →
  execute (applyCondition c (selectAll select_)) t = (Ok (selected p t), t).
Proof.
  intros Hd.
  destruct (narrows_applyCondition c p Hd (selectAll select_))
    as [(Hk & Hs & Hl & Ho & _) Hm].
  rewrite (execute_select _ p) by (assumption || (intros r; now rewrite Hm)).
  unfold window. now rewrite Hl, Ho.
Qed.

Lemma findBy_selected c p t :
  denotes c p → findBy c t = (Ok (selected p t), t).
Proof. apply execute_selectAll. Qed.

Lemma findOneBy_selected c p t :
  denotes c p → findOneBy c t = (Ok (head (selected p t)), t).
Proof.
  intros Hd. unfold findOneBy, executeTakeFirst, bind.
  now rewrite (execute_selectAll c p).
Qed.

Lemma findAll_all t : findAll t = (Ok t, t).
Proof.
  unfold findAll, execute.
  rewrite (matched_selected _ (λ _, true)) by reflexivity.
  now rewrite selected_all.
Qed.

Lemma get_selected (id : value) t :
  get id t = (Ok (head (selected (λ r, sql_eq (r !! "id") id) t)), t).
Proof.
  unfold get, executeTakeFirst, bind.
  change (where_eq "id" id (selectAll select_))
    with (applyCondition (Callback (where_eq "id" id)) (selectAll select_)).
  now rewrite (execute_selectAll _ (λ r, sql_eq (r !! "id") id))
    by apply denotes_Callback_where_.
Qed.

(** [count] returns the number of selected rows, read back from the
    decimal text in which the database sends it. *)
Lemma count_selected c p t :
  denotes c p →
  count c t = (Ok (of_Z (Z.of_nat (length (selected p t)))), t).
Proof.
  intros Hd.
  destruct (narrows_applyCondition c p Hd select_)
    as [(Hk & Hs & Hl & Ho & _) Hm].
  unfold count, executeTakeFirst, bind, execute.
  cbn [select q_kind]. rewrite Hk. cbn [select_ selectFrom blank q_kind].
  rewrite project_count by (cbn [select q_selections]; now rewrite Hs).
  unfold window. cbn [select q_limit q_offset]. rewrite Hl, Ho.
  cbv [select_ selectFrom blank q_limit q_offset negative orb
       from_option id Z.to_nat drop head ret].
  rewrite lookup_singleton_eq.
  cbv [nullish_coalesce nullish toString].
  rewrite (matched_selected _ p)
    by (intros r; change (matches (applyCondition c select_) r = p r);
        now rewrite Hm).
  now rewrite parseInt_decimal.
Qed.

(** One page: the count, then the window of the selected rows. *)
Lemma findAllPaginated_selected (page pageSize : Z) c p t :
  denotes c p → 0 <= pageSize → 0 <= (page - 1) * pageSize →
  findAllPaginated page pageSize c t
  = (Ok {| data := take (Z.to_nat pageSize)
                     (drop (Z.to_nat ((page - 1) * pageSize)) (selected p t));
           BaseRepository.page := page;
           pageCount :=
             Math_ceil (num_div (of_Z (Z.of_nat (length (selected p t))))
                                (of_Z pageSize));
           BaseRepository.pageSize := pageSize;
           rowCount := of_Z (Z.of_nat (length (selected p t))) |}, t).
Proof.
  intros Hd Hsize Hoff.
  destruct (narrows_applyCondition c p Hd (selectAll select_))
    as [(Hk & Hs & Hl & Ho & _) Hm].
  unfold findAllPaginated, bind. rewrite (count_selected c p) by exact Hd.
  rewrite (execute_select _ p)
    by (assumption || (intros r; cbn; now rewrite <- (Hm r))).
  unfold window. cbn [limit offset q_limit q_offset negative from_option].
  destruct (Z.ltb_spec pageSize 0); [lia|].
  destruct (Z.ltb_spec ((page - 1) * pageSize) 0); [lia|].
  reflexivity.
Qed.

(** A DELETE removes the selected rows and returns them on request. *)
Lemma execute_delete q p t :
  q_kind q = DeleteQuery → q_limit q = None → q_offset q = None →
  (∀ r, matches q r = p r) →
  execute q t = (Ok (returned q (selected p t)), rejected p t).
Proof.
  intros Hk Hl Ho Hm. unfold execute, windowed. rewrite Hk, Hl, Ho.
  rewrite (matched_selected q p t Hm), (unmatched_rejected q p t Hm).
  reflexivity.
Qed.

Lemma deleteBy_selected c p t :
  denotes c p → deleteBy c t = (Ok (selected p t), rejected p t).
Proof.
  intros Hd.
  destruct (narrows_applyCondition c p Hd deleteFrom)
    as [(Hk & Hs & Hl & Ho & _) Hm].
  unfold deleteBy.
  rewrite (execute_delete _ p)
    by (assumption || (intros r; cbn; now rewrite <- (Hm r))).
  reflexivity.
Qed.

Lemma delete_selected (id : value) t :
  delete id t
  = (match head (selected (λ r, sql_eq (r !! "id") id) t) with
     | Some r => Ok r
     | None => Err NoResultError
     end, rejected (λ r, sql_eq (r !! "id") id) t).
Proof.
  unfold delete, executeTakeFirstOrThrow, bind.
  rewrite (execute_delete _ (λ r, sql_eq (r !! "id") id))
    by (reflexivity || (intros r; unfold matches; cbn; apply andb_true_r)).
  cbn [returned returningAll q_returning].
  now destruct (head _).
Qed.

Lemma truncate_empties t : truncate t = (Ok (), []).
Proof.
  unfold truncate, bind.
  rewrite (execute_delete _ (λ _, true)) by reflexivity.
  now rewrite rejected_all.
Qed.

End Methods.

(* ===================================================================== *)
(** ** Rows, keys and constraints *)
(* ===================================================================== *)

Section Rows.

Implicit Types (r item : obj) (t : Table) (k : string) (v id : value).

Lemma lookup_defined (o : obj) k :
  defined o !! k
  = match o !! k with
    | Some VUndefined => None
    | other => other
    end.
Proof.
  unfold defined. destruct (o !! k) as [v|] eqn:E.
  - destruct (decide (v = VUndefined)) as [->|Hv].
    + apply map_lookup_filter_None. right. intros x Hx. cbn. congruence.
    + transitivity (Some v); [|now destruct v].
      apply map_lookup_filter_Some. split; [exact E | exact Hv].
  - apply map_lookup_filter_None. now left.
Qed.

Lemma lookup_assign (s r : obj) k :
  assign s r !! k
  = match s !! k with
    | Some VUndefined | None => r !! k
    | Some v => Some v
    end.
Proof.
  unfold assign. rewrite lookup_union, lookup_defined.
  destruct (s !! k) as [[]|]; destruct (r !! k); reflexivity.
Qed.

(** The three keys that [insert_values] fixes, and the others. *)
Lemma insert_values_id (now : Z) (uuid : string) item :
  insert_values now uuid item !! "id" = Some (chosen_id uuid item).
Proof.
  unfold insert_values, spread, chosen_id.
  rewrite !lookup_insert_ne by discriminate.
  rewrite lookup_union.
  destruct (item !! "id"); [reflexivity|].
  now rewrite lookup_singleton_eq.
Qed.

Lemma insert_values_createdAt (now : Z) (uuid : string) item :
  insert_values now uuid item !! "createdAt" = Some (VDate now).
Proof.
  unfold insert_values.
  rewrite lookup_insert_ne by discriminate. apply lookup_insert_eq.
Qed.

Lemma insert_values_updatedAt (now : Z) (uuid : string) item :
  insert_values now uuid item !! "updatedAt" = Some (VDate now).
Proof. unfold insert_values. apply lookup_insert_eq. Qed.

Lemma insert_values_other (now : Z) (uuid : string) item k :
  k ≠ "id" → k ≠ "createdAt" → k ≠ "updatedAt" →
  insert_values now uuid item !! k = item !! k.
Proof.
  intros H1 H2 H3. unfold insert_values, spread.
  rewrite !lookup_insert_ne by congruence.
  rewrite lookup_union, lookup_singleton_ne by congruence.
  now destruct (item !! k).
Qed.

Lemma key_inserted (now : Z) (uuid : string) item :
  key (defined (insert_values now uuid item)) = chosen_id uuid item.
Proof.
  unfold key, get_prop. rewrite lookup_defined, insert_values_id.
  now destruct (chosen_id uuid item).
Qed.

Lemma not_null_inserted (now : Z) (uuid : string) item :
  not_null (defined (insert_values now uuid item))
  = negb (nullish (chosen_id uuid item)).
Proof.
  unfold not_null. rewrite key_inserted.
  rewrite !lookup_defined, insert_values_createdAt, insert_values_updatedAt.
  rewrite !bool_decide_eq_false_2 by discriminate.
  now rewrite !andb_true_r.
Qed.

(** A row with a proper key carries it under ["id"]. *)
Lemma key_lookup r : nullish (key r) = false → r !! "id" = Some (key r).
Proof. unfold key, get_prop. now destruct (r !! "id"). Qed.

Lemma has_id_key id r : has_id id r = true → key r = id ∧ nullish id = false.
Proof.
  unfold has_id, sql_eq, key, get_prop.
  destruct (r !! "id") as [c|]; [|discriminate].
  rewrite !andb_true_iff, bool_decide_eq_true, !negb_true_iff.
  now intros [[_ ?] ->].
Qed.

Lemma has_id_lookup id r : has_id id r = true → r !! "id" = Some id.
Proof.
  intros H. destruct (has_id_key id r H) as [<- Hn]. now apply key_lookup.
Qed.

Lemma key_has_id id r : key r = id → nullish id = false → has_id id r = true.
Proof.
  intros <- Hn. unfold has_id. rewrite (key_lookup r Hn). unfold sql_eq.
  now rewrite Hn, bool_decide_eq_true_2.
Qed.

(** For a proper id, carrying it is having it under ["id"]. *)
Lemma has_id_spec id r :
  nullish id = false → has_id id r = true ↔ r !! "id" = Some id.
Proof.
  intros Hn. split; [apply has_id_lookup|].
  intros H. apply key_has_id; [|exact Hn].
  unfold key, get_prop. now rewrite H.
Qed.

Lemma admissible_spec (written kept : Table) :
  admissible written kept = true
  ↔ Forall (λ r, not_null r = true) written
    ∧ NoDup (keys written)
    ∧ ∀ v, v ∈ keys written → v ∉ keys kept.
Proof.
  unfold admissible.
  rewrite !andb_true_iff, bool_decide_eq_true.
  rewrite !forallb_forall, !Forall_forall.
  setoid_rewrite bool_decide_eq_true.
  setoid_rewrite <- list_elem_of_In. tauto.
Qed.

(** Under a primary key, an id selects at most one row. *)
Lemma selected_unique id r t :
  NoDup (keys t) → r ∈ t → has_id id r = true →
  selected (has_id id) t = [r].
Proof.
  intros Hnd Hr Hid. unfold selected.
  induction t as [|x t IH]; [now apply not_elem_of_nil in Hr|].
  cbn in Hnd. apply NoDup_cons in Hnd as [Hx Hnd].
  assert (Hrest : ∀ y, y ∈ t → has_id id y = true → key x = id → False).
  { intros y Hy Hy' Hkx. apply Hx. rewrite Hkx.
    destruct (has_id_key id y Hy') as [<- _].
    now apply list_elem_of_fmap_2. }
  destruct (has_id id x) eqn:Ex.
  - rewrite filter_cons_True by exact Ex.
    destruct (has_id_key id x Ex) as [Hkx _].
    assert (r = x) as ->.
    { apply elem_of_cons in Hr as [?|Hr]; [assumption|].
      now destruct (Hrest r Hr Hid Hkx). }
    f_equal. apply (selected_none (has_id id)).
    intros y Hy. destruct (has_id id y) eqn:Ey; [|reflexivity].
    now destruct (Hrest y Hy Ey Hkx).
  - rewrite filter_cons_False by (rewrite Ex; discriminate).
    apply IH; [exact Hnd|].
    apply elem_of_cons in Hr as [->|Hr]; [congruence|exact Hr].
Qed.

End Rows.

(* ===================================================================== *)
(** ** The writing methods *)
(* ===================================================================== *)

Section Writes.

Implicit Types (q : Query) (r item : obj) (t : Table) (p : obj → bool).

(** An INSERT either appends all its rows or fails and appends none. *)
Lemma execute_insert (rows : list obj) t :
  execute (returningAll (values rows insertInto)) t
  = if bool_decide (defined <$> rows = []) then (Err QueryError, t)
    else if admissible (defined <$> rows) t
         then (Ok (defined <$> rows), t ++ (defined <$> rows))
         else (Err ConstraintViolation, t).
Proof. reflexivity. Qed.

(** An UPDATE rewrites the selected rows, if the result is admissible. *)
Lemma execute_update q p t :
  q_kind q = UpdateQuery → q_limit q = None → q_offset q = None →
  (∀ r, matches q r = p r) →
  execute q t
  = if admissible (assign (q_set q) <$> selected p t) (rejected p t)
    then (Ok (returned q (assign (q_set q) <$> selected p t)),
          (λ r, if p r then assign (q_set q) r else r) <$> t)
    else (Err ConstraintViolation, t).
Proof.
  intros Hk Hl Ho Hm. unfold execute, windowed. rewrite Hk, Hl, Ho.
  rewrite (matched_selected q p t Hm), (unmatched_rejected q p t Hm).
  cbn. destruct (admissible _ _); [|reflexivity].
  f_equal. apply list_fmap_ext. intros _ r _. now rewrite Hm.
Qed.

Lemma update_unfold (now : Z) item t :
  let id := get_prop item "id" in
  let s := <["updatedAt" := VDate now]> item in
  update now item t
  = if admissible (assign s <$> selected (has_id id) t) (rejected (has_id id) t)
    then (match head (assign s <$> selected (has_id id) t) with
          | Some r => Ok r
          | None => Err NoResultError
          end,
          (λ r, if has_id id r then assign s r else r) <$> t)
    else (Err ConstraintViolation, t).
Proof.
  intros id s. unfold update, executeTakeFirstOrThrow, bind.
  rewrite (execute_update _ (has_id id))
    by (reflexivity || (intros r; unfold matches; cbn; apply andb_true_r)).
  cbn [returned returningAll set q_set q_returning].
  fold id s. destruct (admissible _ _); [|reflexivity].
  now destruct (head _).
Qed.

(** Rewriting no row leaves the table as it is. *)
Lemma fmap_unselected p (f : obj → obj) t :
  selected p t = [] → (λ r, if p r then f r else r) <$> t = t.
Proof.
  intros H. rewrite <- (list_fmap_id t) at 2.
  apply list_fmap_ext. intros _ r Hr%list_elem_of_lookup_2.
  destruct (p r) eqn:E; [|reflexivity].
  assert (r ∈ selected p t) as Hin by now apply list_elem_of_filter.
  rewrite H in Hin. now apply not_elem_of_nil in Hin.
Qed.

Lemma selected_nil_iff p t :
  selected p t = [] ↔ ∀ r, r ∈ t → p r = false.
Proof.
  split; [|apply selected_none].
  intros H r Hr. destruct (p r) eqn:E; [|reflexivity].
  assert (r ∈ selected p t) as Hin by now apply list_elem_of_filter.
  rewrite H in Hin. now apply not_elem_of_nil in Hin.
Qed.

End Writes.

(* ===================================================================== *)
(** ** Reading: pages, counts and empty results *)
(* ===================================================================== *)

Section Paging.

Implicit Types (r : obj) (t : Table) (p : obj → bool) (c : Condition).

(** Cutting a list into [k] consecutive pieces of [n] elements and gluing
    them back gives the list, when [k * n] covers its length. *)
Lemma concat_pieces {A} (n k : nat) (l : list A) :
  (length l ≤ k * n)%nat →
  concat ((λ i, take n (drop (i * n) l)) <$> seq 0 k) = l.
Proof.
  revert l. induction k as [|k IH]; intros l Hlen.
  - cbn. symmetry. apply nil_length_inv. lia.
  - cbn [seq]. rewrite <- fmap_S_seq, fmap_cons, <- list_fmap_compose.
    cbn [concat]. rewrite drop_0.
    transitivity (take n l ++ drop n l); [|apply take_drop]. f_equal.
    rewrite <- (IH (drop n l)) by (rewrite length_drop; lia).
    f_equal. apply list_fmap_ext. intros _ i _. cbn.
    now rewrite drop_drop.
Qed.

Lemma page_data_selected (pageSize : Z) c p t (i : nat) :
  denotes c p → 1 <= pageSize →
  page_data pageSize c t (S i)
  = take (Z.to_nat pageSize) (drop (i * Z.to_nat pageSize) (selected p t)).
Proof.
  intros Hd Hsize. unfold page_data.
  rewrite (findAllPaginated_selected _ _ c p) by (assumption || nia).
  cbn [data]. do 2 f_equal. nia.
Qed.

End Paging.

(** C1.  For a condition that stands for the row predicate [p], a page
    number of at least 1 and a page size of at least 1, [findAllPaginated]
    succeeds and leaves the table as it is; [rowCount] is the number of rows
    that match, before any paging; [pageCount] is the ceiling of
    [rowCount / pageSize], that is the integer [n] with
    [(n - 1) * pageSize < rowCount <= n * pageSize]; and [data] holds, in
    order, the matching rows at the positions from [(page - 1) * pageSize]
    up to but excluding [page * pageSize]. *)
Theorem findAllPaginated_page (t : Table) (c : Condition) (p : obj → bool)
    (page pageSize : Z) :
  denotes c p → 1 <= page → 1 <= pageSize →
  ∃ pg,
    findAllPaginated page pageSize c t = (Ok pg, t)
    ∧ rowCount pg = of_Z (Z.of_nat (length (selected p t)))
    ∧ (∃ n, pageCount pg = of_Z n
            ∧ (n - 1) * pageSize < Z.of_nat (length (selected p t))
              <= n * pageSize)
    ∧ Z.of_nat (length (data pg)) <= pageSize
    ∧ (∀ k, (page - 1) * pageSize <= k < page * pageSize →
            data pg !! Z.to_nat (k - (page - 1) * pageSize)
            = selected p t !! Z.to_nat k)
    ∧ BaseRepository.page pg = page
    ∧ BaseRepository.pageSize pg = pageSize.
Proof.
  intros Hd Hpage Hsize.
  eexists. split.
  { apply (findAllPaginated_selected _ _ c p); [assumption | lia | nia]. }
  cbn [rowCount pageCount data BaseRepository.page BaseRepository.pageSize].
  split; [reflexivity|]. split.
  { destruct (ceil_div_spec (Z.of_nat (length (selected p t))) pageSize Hsize)
      as (n & Hn & Hbounds).
    exists n. split; [exact Hn | exact Hbounds]. }
  split.
  { rewrite length_take. lia. }
  split; [|split; reflexivity].
  intros k Hk.
  rewrite lookup_take_lt by lia. rewrite lookup_drop. f_equal. nia.
Qed.

(** The second page of two rows, of the rows with a value of 5 or more. *)
Lemma findAllPaginated_page_witness :
  let t := [ {[ "id" := VStr "a"; "value" := VNum 5 ]};
             {[ "id" := VStr "b"; "value" := VNum 1 ]};
             {[ "id" := VStr "c"; "value" := VNum 7 ]};
             {[ "id" := VStr "d"; "value" := VNum 9 ]} ] in
  let c := Callback (where_ (value_at_least 5)) in
  denotes c (value_at_least 5) ∧ 1 <= 2 ∧ 1 <= 2
  ∧ ∃ pg,
      findAllPaginated 2 2 c t = (Ok pg, t)
      ∧ rowCount pg = of_Z (Z.of_nat (length (selected (value_at_least 5) t)))
      ∧ (∃ n, pageCount pg = of_Z n
              ∧ (n - 1) * 2 < Z.of_nat (length (selected (value_at_least 5) t))
                <= n * 2)
      ∧ Z.of_nat (length (data pg)) <= 2
      ∧ (∀ k, (2 - 1) * 2 <= k < 2 * 2 →
              data pg !! Z.to_nat (k - (2 - 1) * 2)
              = selected (value_at_least 5) t !! Z.to_nat k)
      ∧ BaseRepository.page pg = 2
      ∧ BaseRepository.pageSize pg = 2.
Proof.
  intros t c.
  split; [apply denotes_Callback_where_|].
  split; [lia|]. split; [lia|].
  apply (findAllPaginated_page t c (value_at_least 5) 2 2);
    [apply denotes_Callback_where_ | lia | lia].
Defined.

(** C6.  For a condition that stands for the row predicate [p], [count]
    returns the length of the sequence that [findBy] returns, and neither
    changes the table.  The empty object is such a condition: it matches all
    rows, so [findBy] returns the whole table. *)
Theorem count_is_length_of_findBy (t : Table) (c : Condition) (p : obj → bool) :
  denotes c p →
  (∃ rows,
     findBy c t = (Ok rows, t)
     ∧ count c t = (Ok (of_Z (Z.of_nat (length rows))), t))
  ∧ findBy (Filter ∅) t = (Ok t, t)
  ∧ count (Filter ∅) t = (Ok (of_Z (Z.of_nat (length t))), t).
Proof.
  intros Hd. split.
  - exists (selected p t). split.
    + now apply findBy_selected.
    + now apply count_selected.
  - assert (Hall : selected (exact_match ∅) t = t).
    { apply selected_all. intros r. unfold exact_match.
      apply bool_decide_eq_true_2, map_Forall_empty. }
    split.
    + rewrite (findBy_selected _ _ t (denotes_Filter ∅)). now rewrite Hall.
    + rewrite (count_selected _ _ t (denotes_Filter ∅)). now rewrite Hall.
Qed.

(** Counting the rows whose value is 1, as an exact-match object. *)
Lemma count_is_length_of_findBy_witness :
  let t := [ {[ "id" := VStr "a"; "value" := VNum 1 ]};
             {[ "id" := VStr "b"; "value" := VNum 2 ]};
             {[ "id" := VStr "c"; "value" := VNum 1 ]} ] in
  let c := Filter {[ "value" := VNum 1 ]} in
  denotes c (exact_match {[ "value" := VNum 1 ]})
  ∧ (∃ rows,
       findBy c t = (Ok rows, t)
       ∧ count c t = (Ok (of_Z (Z.of_nat (length rows))), t))
  ∧ findBy (Filter ∅) t = (Ok t, t)
  ∧ count (Filter ∅) t = (Ok (of_Z (Z.of_nat (length t))), t).
Proof.
  intros t c. split; [apply denotes_Filter|].
  apply (count_is_length_of_findBy t c (exact_match {[ "value" := VNum 1 ]})).
  apply denotes_Filter.
Defined.

(** C6, as stated for every filter, fails for a callback that sets LIMIT:
    the LIMIT applies to the rows that [findBy] returns, but in [count] it
    applies to the one row that carries the COUNT.  With two rows of value 1
    and LIMIT 1, both calls succeed, [findBy] returns one row and [count]
    returns 2. *)
Lemma count_differs_from_findBy_under_a_limit :
  let t : Table := [ {[ "id" := VStr "a"; "value" := VNum 1 ]};
                     {[ "id" := VStr "b"; "value" := VNum 2 ]};
                     {[ "id" := VStr "c"; "value" := VNum 1 ]} ] in
  let c := Callback (λ q, limit 1 (where_eq "value" (VNum 1) q)) in
  (∃ rows, findBy c t = (Ok rows, t)
           ∧ keys rows = [VStr "a"] ∧ length rows = 1%nat)
  ∧ count c t = (Ok (of_Z 2), t).
Proof.
  intros t c. split.
  - exists (take 1 t). split; [|split; reflexivity].
    vm_compute. reflexivity.
  - vm_compute. reflexivity.
Qed.

(** C7.  For a condition that stands for the row predicate [p] and a page
    size [N >= 1]: the first page reports [rowCount = R], the number of
    matching rows, and [pageCount = n] with [(n - 1) * N < R <= n * N], the
    ceiling of [R / N]; the [data] of pages 1 to [n], one after the other,
    is the sequence of matching rows itself, so no row is left out or
    repeated, and it has no duplicates when the table has none. *)
Theorem pages_cover_the_filtered_set (t : Table) (c : Condition)
    (p : obj → bool) (N : Z) :
  denotes c p → 1 <= N →
  ∃ pg n,
    findAllPaginated 1 N c t = (Ok pg, t)
    ∧ rowCount pg = of_Z (Z.of_nat (length (selected p t)))
    ∧ pageCount pg = of_Z (Z.of_nat n)
    ∧ (Z.of_nat n - 1) * N < Z.of_nat (length (selected p t)) <= Z.of_nat n * N
    ∧ (∀ k, ∃ pgk,
         findAllPaginated (Z.of_nat (S k)) N c t = (Ok pgk, t)
         ∧ page_data N c t (S k) = data pgk)
    ∧ concat (page_data N c t <$> seq 1 n) = selected p t
    ∧ (NoDup t → NoDup (concat (page_data N c t <$> seq 1 n))).
Proof.
  intros Hd HN.
  destruct (findAllPaginated_page t c p 1 N Hd ltac:(lia) HN)
    as (pg & Hrun & Hrows & (n & Hn & Hlo & Hhi) & _).
  assert (Hpages : concat (page_data N c t <$> seq 1 (Z.to_nat n))
                   = selected p t).
  { rewrite <- fmap_S_seq, <- list_fmap_compose.
    rewrite <- (concat_pieces (Z.to_nat N) (Z.to_nat n) (selected p t))
      at 1 by nia.
    f_equal. apply list_fmap_ext. intros _ i _. cbn.
    now apply page_data_selected. }
  exists pg, (Z.to_nat n).
  assert (0 <= n) by nia. rewrite Z2Nat.id by assumption.
  repeat split; try assumption.
  - intros k. unfold page_data.
    rewrite (findAllPaginated_selected _ _ c p) by (assumption || nia).
    eexists. split; reflexivity.
  - intros Hnd. rewrite Hpages. now apply NoDup_filter.
Qed.

(** Four matching rows in pages of three: two pages. *)
Lemma pages_cover_the_filtered_set_witness :
  let t := [ {[ "id" := VStr "a"; "value" := VNum 5 ]};
             {[ "id" := VStr "b"; "value" := VNum 1 ]};
             {[ "id" := VStr "c"; "value" := VNum 7 ]};
             {[ "id" := VStr "d"; "value" := VNum 9 ]};
             {[ "id" := VStr "e"; "value" := VNum 6 ]} ] in
  let c := Callback (where_ (value_at_least 5)) in
  let p := value_at_least 5 in
  denotes c p ∧ 1 <= 3
  ∧ ∃ pg n,
      findAllPaginated 1 3 c t = (Ok pg, t)
      ∧ rowCount pg = of_Z (Z.of_nat (length (selected p t)))
      ∧ pageCount pg = of_Z (Z.of_nat n)
      ∧ (Z.of_nat n - 1) * 3 < Z.of_nat (length (selected p t))
        <= Z.of_nat n * 3
      ∧ (∀ k, ∃ pgk,
           findAllPaginated (Z.of_nat (S k)) 3 c t = (Ok pgk, t)
           ∧ page_data 3 c t (S k) = data pgk)
      ∧ concat (page_data 3 c t <$> seq 1 n) = selected p t
      ∧ (NoDup t → NoDup (concat (page_data 3 c t <$> seq 1 n))).
Proof.
  intros t c p. split; [apply denotes_Callback_where_|]. split; [lia|].
  apply (pages_cover_the_filtered_set t c p 3);
    [apply denotes_Callback_where_ | lia].
Defined.

(** C8.  For a condition that stands for the row predicate [p], [deleteBy]
    returns the rows that match, as they were, and leaves exactly the rows
    that do not match, unchanged and in order; a following [findAll] returns
    those; and when no row matches the result is the empty sequence, not an
    error, and the table is as before. *)
Theorem deleteBy_removes_the_matching_rows (t : Table) (c : Condition)
    (p : obj → bool) :
  denotes c p →
  ∃ removed t',
    deleteBy c t = (Ok removed, t')
    ∧ removed = selected p t
    ∧ t' = rejected p t
    ∧ (∀ r, r ∈ removed ↔ r ∈ t ∧ p r = true)
    ∧ (∀ r, r ∈ t' ↔ r ∈ t ∧ p r = false)
    ∧ findAll t' = (Ok t', t')
    ∧ ((∀ r, r ∈ t → p r = false) → removed = [] ∧ t' = t).
Proof.
  intros Hd. exists (selected p t), (rejected p t).
  split; [now apply deleteBy_selected|].
  split; [reflexivity|]. split; [reflexivity|].
  split.
  { intros r. unfold selected. rewrite list_elem_of_filter. tauto. }
  split.
  { intros r. unfold rejected. rewrite list_elem_of_filter.
    destruct (p r); intuition congruence. }
  split; [apply findAll_all|].
  intros Hnone. split; [now apply selected_none | now apply rejected_none].
Qed.

(** The deletion of the test suite: the rows with a value of 5 or more. *)
Lemma deleteBy_removes_the_matching_rows_witness :
  let t := [ {[ "id" := VStr "a"; "value" := VNum 5 ]};
             {[ "id" := VStr "b"; "value" := VNum 1 ]};
             {[ "id" := VStr "c"; "value" := VNum 7 ]} ] in
  let c := Callback (where_ (value_at_least 5)) in
  let p := value_at_least 5 in
  denotes c p
  ∧ ∃ removed t',
      deleteBy c t = (Ok removed, t')
      ∧ removed = selected p t
      ∧ t' = rejected p t
      ∧ (∀ r, r ∈ removed ↔ r ∈ t ∧ p r = true)
      ∧ (∀ r, r ∈ t' ↔ r ∈ t ∧ p r = false)
      ∧ findAll t' = (Ok t', t')
      ∧ ((∀ r, r ∈ t → p r = false) → removed = [] ∧ t' = t).
Proof.
  intros t c p. split; [apply denotes_Callback_where_|].
  apply (deleteBy_removes_the_matching_rows t c p).
  apply denotes_Callback_where_.
Defined.

(** C9.  Whatever the table holds, [truncate] succeeds and leaves it empty:
    a following [findAll] returns the empty sequence and a following
    [count()], whose default condition is the empty object, returns 0. *)
Theorem truncate_empties_the_table (t : Table) :
  ∃ t',
    truncate t = (Ok (), t')
    ∧ t' = []
    ∧ findAll t' = (Ok [], t')
    ∧ count (Filter ∅) t' = (Ok (of_Z 0), t').
Proof.
  exists []. split; [apply truncate_empties|]. split; [reflexivity|].
  split; [apply findAll_all|].
  now rewrite (count_selected _ _ [] (denotes_Filter ∅)).
Qed.

(* ===================================================================== *)
(** ** Failure: the "no result" error *)
(* ===================================================================== *)

Section NoResult.

Implicit Types (r item : obj) (t : Table) (id : value).

Lemma update_no_result (now : Z) item t :
  (update now item t).1 = Err NoResultError
  ↔ ∀ r, r ∈ t → has_id (get_prop item "id") r = false.
Proof.
  rewrite update_unfold. cbv zeta. rewrite <- selected_nil_iff.
  destruct (selected (has_id (get_prop item "id")) t) as [|x hit] eqn:E.
  - cbn. split; reflexivity.
  - destruct (admissible _ _); cbn; split; discriminate.
Qed.

Lemma update_no_result_unchanged (now : Z) item t :
  (update now item t).1 = Err NoResultError → (update now item t).2 = t.
Proof.
  intros H. rewrite update_no_result, <- selected_nil_iff in H.
  rewrite update_unfold. cbv zeta. rewrite H. cbn.
  now apply fmap_unselected.
Qed.

Lemma delete_no_result id t :
  (delete id t).1 = Err NoResultError ↔ ∀ r, r ∈ t → has_id id r = false.
Proof.
  rewrite delete_selected. cbn [fst]. rewrite <- selected_nil_iff.
  fold (has_id id).
  destruct (selected (has_id id) t) as [|x hit] eqn:E; cbn.
  - split; reflexivity.
  - split; discriminate.
Qed.

Lemma delete_no_result_unchanged id t :
  (delete id t).1 = Err NoResultError → (delete id t).2 = t.
Proof.
  intros H. rewrite delete_no_result in H.
  rewrite delete_selected. cbn [snd]. now apply rejected_none.
Qed.

End NoResult.

(** C3.  [update] and [delete] fail with [NoResultError], an error of its
    own kind, exactly when no row of the table carries the given id, and
    the table is then as before.  The other methods do not fail when
    nothing matches: [get], [findOneBy] return no row, [findBy], [deleteBy]
    return the empty sequence, [count] returns 0, [findAllPaginated] (for a
    page number of at least 1 and a page size that is not negative) returns
    a page without data and a row count of 0, [findAll] returns the rows of
    the table, none if it has none; the table is as before in each case. *)
Theorem no_result_only_from_update_and_delete (t : Table) :
  (∀ now item,
     ((update now item t).1 = Err NoResultError
      ↔ ∀ r, r ∈ t → has_id (get_prop item "id") r = false)
     ∧ ((update now item t).1 = Err NoResultError → (update now item t).2 = t))
  ∧ (∀ id,
       ((delete id t).1 = Err NoResultError
        ↔ ∀ r, r ∈ t → has_id id r = false)
       ∧ ((delete id t).1 = Err NoResultError → (delete id t).2 = t))
  ∧ (∀ id, (∀ r, r ∈ t → has_id id r = false) → get id t = (Ok None, t))
  ∧ (∀ c p,
       denotes c p → (∀ r, r ∈ t → p r = false) →
       findOneBy c t = (Ok None, t)
       ∧ findBy c t = (Ok [], t)
       ∧ count c t = (Ok (of_Z 0), t)
       ∧ deleteBy c t = (Ok [], t)
       ∧ ∀ page pageSize, 1 <= page → 0 <= pageSize →
           ∃ pg, findAllPaginated page pageSize c t = (Ok pg, t)
                 ∧ data pg = [] ∧ rowCount pg = of_Z 0)
  ∧ findAll t = (Ok t, t)
  ∧ NoResultError ≠ ConstraintViolation
  ∧ NoResultError ≠ QueryError
  ∧ NoResultError ≠ TypeError.
Proof.
  split.
  { intros now item. split;
      [apply update_no_result | apply update_no_result_unchanged]. }
  split.
  { intros id. split;
      [apply delete_no_result | apply delete_no_result_unchanged]. }
  split.
  { intros id Hnone. rewrite get_selected.
    fold (has_id id). now rewrite (selected_none _ _ Hnone). }
  split.
  { intros c p Hd Hnone.
    pose proof (selected_none p t Hnone) as Hsel.
    rewrite (findOneBy_selected c p), (findBy_selected c p),
      (count_selected c p), (deleteBy_selected c p) by assumption.
    rewrite Hsel, (rejected_none p t Hnone).
    repeat (split; [reflexivity|]).
    intros page pageSize Hpage Hsize.
    eexists. split.
    { apply (findAllPaginated_selected _ _ c p); [assumption | lia | nia]. }
    cbn [data rowCount]. rewrite Hsel. rewrite drop_nil, take_nil.
    split; reflexivity. }
  split; [apply findAll_all|].
  repeat split; discriminate.
Qed.

(* ===================================================================== *)
(** ** Insertion *)
(* ===================================================================== *)

Section Insertion.

Implicit Types (r item : obj) (t : Table) (items : list obj).

(** The rows that [insert] and [insertAll] send to the table. *)
Lemma inserted_rows (now : Z) (uuid : nat → string) items :
  defined <$> imap (λ i item, insert_values now (uuid i) item) items
  = imap (λ i item, defined (insert_values now (uuid i) item)) items.
Proof. now rewrite fmap_imap. Qed.

Lemma keys_inserted (now : Z) (uuid : nat → string) items :
  keys (imap (λ i item, defined (insert_values now (uuid i) item)) items)
  = imap (λ i item, chosen_id (uuid i) item) items.
Proof.
  unfold keys. rewrite fmap_imap. apply imap_ext.
  intros i item _. cbn. apply key_inserted.
Qed.

Lemma Forall_imap {A B} (P : B → Prop) (g : nat → A → B) (l : list A) :
  Forall P (imap g l) ↔ ∀ i x, l !! i = Some x → P (g i x).
Proof.
  rewrite Forall_lookup. split; intros H i x Hx.
  - apply (H i). now rewrite list_lookup_imap, Hx.
  - rewrite list_lookup_imap in Hx.
    destruct (l !! i) as [a|] eqn:E; [|discriminate].
    injection Hx as <-. now apply H.
Qed.

Lemma not_null_inserted_rows (now : Z) (uuid : nat → string) items :
  Forall (λ r, not_null r = true)
         (imap (λ i item, defined (insert_values now (uuid i) item)) items)
  ↔ Forall (λ v, nullish v = false)
           (imap (λ i item, chosen_id (uuid i) item) items).
Proof.
  rewrite !Forall_imap. split; intros H i x Hx; specialize (H i x Hx).
  - rewrite not_null_inserted in H. now apply negb_true_iff.
  - rewrite not_null_inserted. now apply negb_true_iff.
Qed.

(** The fields of an inserted row. *)
Lemma inserted_row_fields (now : Z) (uuid : string) item :
  let rec := defined (insert_values now uuid item) in
  (nullish (chosen_id uuid item) = false →
   rec !! "id" = Some (chosen_id uuid item))
  ∧ rec !! "createdAt" = Some (VDate now)
  ∧ rec !! "updatedAt" = Some (VDate now)
  ∧ ∀ k v, k ≠ "id" → k ≠ "createdAt" → k ≠ "updatedAt" →
           item !! k = Some v → v ≠ VUndefined → rec !! k = Some v.
Proof.
  cbv zeta. repeat split.
  - intros Hn. rewrite lookup_defined, insert_values_id.
    now destruct (chosen_id uuid item).
  - now rewrite lookup_defined, insert_values_createdAt.
  - now rewrite lookup_defined, insert_values_updatedAt.
  - intros k v H1 H2 H3 Hk Hv.
    rewrite lookup_defined, insert_values_other, Hk by assumption.
    now destruct v.
Qed.

(** When [insertAll] succeeds, and what it then returns. *)
Lemma insertAll_unfold (now : Z) (uuid : nat → string) items t :
  let rows := imap (λ i item, defined (insert_values now (uuid i) item)) items in
  insertAll now uuid items t
  = if bool_decide (rows = []) then (Err QueryError, t)
    else if admissible rows t then (Ok rows, t ++ rows)
         else (Err ConstraintViolation, t).
Proof.
  cbv zeta. unfold insertAll. rewrite execute_insert.
  now rewrite inserted_rows.
Qed.

End Insertion.

(** C4.  When the id that the item ends up with (its own if it has the key,
    the drawn UUID otherwise) is a proper value that no row of the table
    carries, [insert] returns the record that it appends to the table; the
    record carries the caller's id if one was supplied and the drawn UUID
    otherwise; its [createdAt] and [updatedAt] are both the [now] of the
    call, hence equal; and it carries the other defined fields of the
    item. *)
Theorem insert_returns_the_persisted_record (now : Z) (uuid : string)
    (item : obj) (t : Table) :
  nullish (chosen_id uuid item) = false →
  chosen_id uuid item ∉ keys t →
  ∃ rec,
    insert now uuid item t = (Ok (Some rec), t ++ [rec])
    ∧ (∀ v, item !! "id" = Some v → rec !! "id" = Some v)
    ∧ (item !! "id" = None → rec !! "id" = Some (VStr uuid))
    ∧ rec !! "createdAt" = Some (VDate now)
    ∧ rec !! "updatedAt" = Some (VDate now)
    ∧ rec !! "createdAt" = rec !! "updatedAt"
    ∧ (∀ k v, k ≠ "id" → k ≠ "createdAt" → k ≠ "updatedAt" →
              item !! k = Some v → v ≠ VUndefined → rec !! k = Some v).
Proof.
  intros Hproper Hfresh.
  destruct (inserted_row_fields now uuid item) as (Hid & Hc & Hu & Hrest).
  exists (defined (insert_values now uuid item)). split.
  { unfold insert, bind. rewrite execute_insert. cbn [fmap list_fmap].
    rewrite bool_decide_eq_false_2 by discriminate.
    replace (admissible [defined (insert_values now uuid item)] t) with true;
      [reflexivity|].
    symmetry. apply admissible_spec. split; [|split].
    - constructor; [|constructor]. rewrite not_null_inserted.
      now apply negb_true_iff.
    - apply NoDup_singleton.
    - intros v Hv. cbn in Hv. rewrite key_inserted in Hv.
      apply list_elem_of_singleton in Hv as ->. exact Hfresh. }
  specialize (Hid Hproper). unfold chosen_id in Hid.
  split; [intros v Hv; now rewrite Hv in Hid|].
  split; [intros Hv; now rewrite Hv in Hid|].
  split; [exact Hc|]. split; [exact Hu|].
  split; [now rewrite Hc, Hu | exact Hrest].
Qed.

(** The first insertion of the test suite, [insert({ name: "foo" })]. *)
Lemma insert_returns_the_persisted_record_witness :
  let item : obj := {[ "name" := VStr "foo" ]} in
  let uuid := "3f0c" in
  nullish (chosen_id uuid item) = false
  ∧ (chosen_id uuid item ∉ keys [])
  ∧ ∃ rec,
      insert 1000 uuid item [] = (Ok (Some rec), [] ++ [rec])
      ∧ (∀ v, item !! "id" = Some v → rec !! "id" = Some v)
      ∧ (item !! "id" = None → rec !! "id" = Some (VStr uuid))
      ∧ rec !! "createdAt" = Some (VDate 1000)
      ∧ rec !! "updatedAt" = Some (VDate 1000)
      ∧ rec !! "createdAt" = rec !! "updatedAt"
      ∧ (∀ k v, k ≠ "id" → k ≠ "createdAt" → k ≠ "updatedAt" →
                item !! k = Some v → v ≠ VUndefined → rec !! k = Some v).
Proof.
  intros item uuid.
  split; [reflexivity|]. split; [apply not_elem_of_nil|].
  apply (insert_returns_the_persisted_record 1000 uuid item []);
    [reflexivity | apply not_elem_of_nil].
Defined.

(** C5.  Write [ids] for the ids that the items end up with.  [insertAll]
    succeeds exactly when the batch is not empty and the table accepts it:
    the ids are proper values, pairwise distinct, and carried by no row of
    the table.  When it succeeds, the result is the sequence of the records
    appended to the table, one for each item and in the order of the items;
    every record has both time stamps equal to the one [now] of the call; and
    the ids of the records, generated or supplied, are pairwise distinct.
    In particular a batch of items without ids succeeds when the UUIDs drawn
    for it are pairwise distinct and new to the table, and the record at
    index [i] then carries the UUID drawn for the item at index [i]. *)
Theorem insertAll_returns_the_batch (now : Z) (uuid : nat → string)
    (items : list obj) (t : Table) :
  let ids := imap (λ i item, chosen_id (uuid i) item) items in
  ((∃ rows t', insertAll now uuid items t = (Ok rows, t'))
   ↔ items ≠ []
     ∧ Forall (λ v, nullish v = false) ids
     ∧ NoDup ids
     ∧ ∀ v, v ∈ ids → v ∉ keys t)
  ∧ (∀ rows t',
      insertAll now uuid items t = (Ok rows, t') →
      t' = t ++ rows
      ∧ length rows = length items
      ∧ (∀ i item,
           items !! i = Some item →
           ∃ rec,
             rows !! i = Some rec
             ∧ rec !! "id" = Some (chosen_id (uuid i) item)
             ∧ rec !! "createdAt" = Some (VDate now)
             ∧ rec !! "updatedAt" = Some (VDate now)
             ∧ ∀ k v, k ≠ "id" → k ≠ "createdAt" → k ≠ "updatedAt" →
                      item !! k = Some v → v ≠ VUndefined →
                      rec !! k = Some v)
      ∧ (∀ i j ri rj,
           i ≠ j → rows !! i = Some ri → rows !! j = Some rj →
           ri !! "id" ≠ rj !! "id"))
  ∧ (items ≠ [] →
     Forall (λ item, item !! "id" = None) items →
     (∀ i j, (i < length items)%nat → (j < length items)%nat → i ≠ j →
             uuid i ≠ uuid j) →
     (∀ i, (i < length items)%nat → VStr (uuid i) ∉ keys t) →
     ∃ rows,
       insertAll now uuid items t = (Ok rows, t ++ rows)
       ∧ ∀ i, (i < length items)%nat →
              ∃ rec, rows !! i = Some rec ∧ rec !! "id" = Some (VStr (uuid i))).
Proof.
  intros ids.
  pose proof (insertAll_unfold now uuid items t) as Hrun. cbv zeta in Hrun.
  set (rows0 := imap (λ i item, defined (insert_values now (uuid i) item)) items)
    in Hrun.
  assert (Hnil : rows0 = [] ↔ items = []).
  { split; intros H.
    - apply nil_length_inv. apply (f_equal length) in H.
      unfold rows0 in H. now rewrite length_imap in H.
    - unfold rows0. now rewrite H. }
  assert (Hadm : admissible rows0 t = true
                 ↔ Forall (λ v, nullish v = false) ids
                   ∧ NoDup ids ∧ ∀ v, v ∈ ids → v ∉ keys t).
  { rewrite admissible_spec. unfold rows0.
    now rewrite keys_inserted, not_null_inserted_rows. }
  assert (Hids : ∀ i item, items !! i = Some item → item !! "id" = None →
                           ids !! i = Some (VStr (uuid i))).
  { intros i item Hi Hnone. unfold ids, chosen_id.
    now rewrite list_lookup_imap, Hi; cbn; rewrite Hnone. }
  split; [|split].
  - rewrite Hrun. split.
    + intros (rows & t' & H).
      destruct (bool_decide (rows0 = [])) eqn:E; [discriminate|].
      apply bool_decide_eq_false in E.
      destruct (decide (admissible rows0 t = true)) as [Ea|Ea];
        [|apply not_true_is_false in Ea; rewrite Ea in H; discriminate].
      split; [now rewrite <- Hnil | now apply Hadm].
    + intros (Hne & H). apply Hadm in H.
      rewrite bool_decide_eq_false_2 by now rewrite Hnil.
      rewrite H. eauto.
  - intros rows t'. rewrite Hrun.
    destruct (bool_decide (rows0 = [])); [discriminate|].
    destruct (decide (admissible rows0 t = true)) as [Ea|Ea];
      [|apply not_true_is_false in Ea; rewrite Ea; discriminate].
    rewrite Ea. intros [= <- <-].
    apply Hadm in Ea as (Hproper & Hnd & _).
    split; [reflexivity|].
    split; [apply length_imap|].
    split.
    + intros i item Hi.
      exists (defined (insert_values now (uuid i) item)).
      split; [unfold rows0; now rewrite list_lookup_imap, Hi|].
      destruct (inserted_row_fields now (uuid i) item) as (Hid & Hc & Hu & Hr).
      split; [|now repeat split].
      apply Hid. unfold ids in Hproper. rewrite Forall_imap in Hproper.
      now apply (Hproper i).
    + intros i j ri rj Hij Hi Hj Heq.
      unfold rows0 in Hi, Hj. rewrite list_lookup_imap in Hi, Hj.
      destruct (items !! i) as [a|] eqn:Ei; [|discriminate].
      destruct (items !! j) as [b|] eqn:Ej; [|discriminate].
      injection Hi as <-. injection Hj as <-.
      unfold ids in Hproper. rewrite Forall_imap in Hproper.
      destruct (inserted_row_fields now (uuid i) a) as (Hia & _).
      destruct (inserted_row_fields now (uuid j) b) as (Hjb & _).
      rewrite (Hia (Hproper i a Ei)), (Hjb (Hproper j b Ej)) in Heq.
      injection Heq as Heq.
      apply Hij. eapply NoDup_lookup; [exact Hnd| |].
      * unfold ids. now rewrite list_lookup_imap, Ei.
      * unfold ids. rewrite list_lookup_imap, Ej. cbn. now rewrite Heq.
  - intros Hne Hnoid Hdistinct Hfresh.
    rewrite Forall_lookup in Hnoid.
    assert (Hlen : length ids = length items) by apply length_imap.
    assert (Hat : ∀ i v, ids !! i = Some v →
                         (i < length items)%nat ∧ v = VStr (uuid i)).
    { intros i v Hv. pose proof (lookup_lt_Some _ _ _ Hv) as Hi.
      rewrite Hlen in Hi. split; [exact Hi|].
      destruct (lookup_lt_is_Some_2 items i Hi) as [item Hitem].
      rewrite (Hids i item Hitem (Hnoid i item Hitem)) in Hv. congruence. }
    assert (Hok : admissible rows0 t = true).
    { apply Hadm. split; [|split].
      - apply Forall_lookup. intros i v Hv.
        destruct (Hat i v Hv) as [_ ->]. reflexivity.
      - apply NoDup_alt. intros i j v Hi Hj.
        destruct (Hat i v Hi) as [Hi' ->]. destruct (Hat j _ Hj) as [Hj' Heq].
        destruct (decide (i = j)) as [|Hij]; [assumption|].
        injection Heq as Heq. now destruct (Hdistinct i j Hi' Hj' Hij).
      - intros v (i & Hv)%list_elem_of_lookup_1.
        destruct (Hat i v Hv) as [Hi ->]. now apply Hfresh. }
    exists rows0. split.
    + rewrite Hrun, Hok. now rewrite bool_decide_eq_false_2 by now rewrite Hnil.
    + intros i Hi.
      destruct (lookup_lt_is_Some_2 items i Hi) as [item Hitem].
      exists (defined (insert_values now (uuid i) item)).
      split; [unfold rows0; now rewrite list_lookup_imap, Hitem|].
      destruct (inserted_row_fields now (uuid i) item) as (Hid & _).
      unfold chosen_id in Hid. rewrite (Hnoid i item Hitem) in Hid.
      now apply Hid.
Qed.

(** C10.  The id in the values that [insert] sends is the item's own
    whenever the item has the key ["id"], whatever its value, and the drawn
    UUID only when the key is absent.  In particular an item with the key
    present and the value [undefined] overrides the UUID with [undefined]:
    the row sent to the table has no id, and a table with the primary key of
    [createTable] rejects it. *)
Theorem insert_id_is_keyed_on_presence (now : Z) (uuid : string) (item : obj) :
  insert_values now uuid item !! "id"
  = match item !! "id" with
    | Some v => Some v
    | None => Some (VStr uuid)
    end
  ∧ (insert_values now uuid item !! "id" = Some (VStr uuid)
     ↔ item !! "id" = None ∨ item !! "id" = Some (VStr uuid))
  ∧ (item !! "id" = Some VUndefined →
     insert_values now uuid item !! "id" = Some VUndefined
     ∧ defined (insert_values now uuid item) !! "id" = None
     ∧ ∀ t, insert now uuid item t = (Err ConstraintViolation, t)).
Proof.
  pose proof (insert_values_id now uuid item) as Hid. unfold chosen_id in Hid.
  split; [|split].
  - rewrite Hid. now destruct (item !! "id").
  - rewrite Hid. destruct (item !! "id") as [v|]; cbn.
    + split; [intros [= ->]; now right | intros [?|[= ->]]; [discriminate|reflexivity]].
    + split; [now left | reflexivity].
  - intros Hundef. rewrite Hundef in Hid. cbn in Hid.
    split; [exact Hid|]. split.
    + now rewrite lookup_defined, Hid.
    + intros t. unfold insert, bind. rewrite execute_insert.
      cbn [fmap list_fmap]. rewrite bool_decide_eq_false_2 by discriminate.
      replace (admissible [defined (insert_values now uuid item)] t) with false;
        [reflexivity|].
      symmetry. unfold admissible. cbn [forallb].
      rewrite not_null_inserted. unfold chosen_id. now rewrite Hundef.
Qed.

(* ===================================================================== *)
(** ** Update *)
(* ===================================================================== *)

Section Update.

Implicit Types (r item : obj) (t : Table) (id : value) (p : obj → bool).

(** Replacing every selected row by a row that is itself selected. *)
Lemma selected_replaced p (r' : obj) t :
  p r' = true →
  selected p ((λ x, if p x then r' else x) <$> t)
  = (λ _, r') <$> selected p t.
Proof.
  intros Hr'. unfold selected. induction t as [|x t IH]; [reflexivity|].
  rewrite fmap_cons. destruct (p x) eqn:E.
  - rewrite !filter_cons_True by assumption. now rewrite fmap_cons, IH.
  - rewrite !filter_cons_False by (rewrite E; discriminate). exact IH.
Qed.

(** The item of an [update] that reaches a row names that row's id. *)
Lemma item_id_lookup item r :
  has_id (get_prop item "id") r = true →
  item !! "id" = Some (get_prop item "id").
Proof.
  intros H. apply has_id_key in H as [_ Hn].
  unfold get_prop in *. now destruct (item !! "id").
Qed.

Lemma not_null_fields r :
  not_null r = true →
  nullish (key r) = false
  ∧ r !! "createdAt" ≠ Some VNull ∧ r !! "updatedAt" ≠ Some VNull.
Proof.
  unfold not_null. rewrite !andb_true_iff, !negb_true_iff.
  rewrite !bool_decide_eq_false. tauto.
Qed.

End Update.

(** C2, as amended.  In a table that respects its constraints, an [update]
    whose item names the id of a row [r] (and does not set [createdAt] to
    null) returns the row [r'] that takes the place of [r], all other rows
    staying as they are, and [get] then returns [r'].  [r'] has the id of
    [r]; it has the [createdAt] of [r] when the item supplies none; its
    [updatedAt] is the [now] of the call, whatever [updatedAt] the item
    carries, and is later than the former one when [now] is; every other
    field that the item supplies with a defined value, [createdAt] included,
    has that value; the fields that the item does not supply are those of
    [r]. *)
Theorem update_refreshes_the_record (now : Z) (item : obj) (t : Table)
    (r : obj) :
  consistent t → r ∈ t →
  has_id (get_prop item "id") r = true →
  item !! "createdAt" ≠ Some VNull →
  ∃ r' t',
    update now item t = (Ok r', t')
    ∧ t' = (λ x, if has_id (get_prop item "id") x then r' else x) <$> t
    ∧ get (get_prop item "id") t' = (Ok (Some r'), t')
    ∧ r' !! "id" = r !! "id"
    ∧ (item !! "createdAt" = None ∨ item !! "createdAt" = Some VUndefined →
       r' !! "createdAt" = r !! "createdAt")
    ∧ r' !! "updatedAt" = Some (VDate now)
    ∧ (∀ before, r !! "updatedAt" = Some (VDate before) → before < now →
         ∃ after, r' !! "updatedAt" = Some (VDate after) ∧ before < after)
    ∧ (∀ k v, k ≠ "updatedAt" → item !! k = Some v → v ≠ VUndefined →
              r' !! k = Some v)
    ∧ (∀ k, k ≠ "updatedAt" →
            item !! k = None ∨ item !! k = Some VUndefined →
            r' !! k = r !! k).
Proof.
  intros [Hnn Hnd] Hr Hid Hcreated.
  set (uid := get_prop item "id") in *.
  set (s := <["updatedAt" := VDate now]> item).
  set (r' := assign s r).
  pose proof (has_id_key uid r Hid) as [Hkey Hproper].
  pose proof (has_id_lookup uid r Hid) as Hrid.
  pose proof (item_id_lookup item r Hid) as Hitem. fold uid in Hitem.
  assert (Hnnr : not_null r = true)
    by (rewrite Forall_forall in Hnn; now apply Hnn).
  apply not_null_fields in Hnnr as (_ & Hrc & _).
  (* the fields of the new row *)
  assert (Hother : ∀ k, k ≠ "updatedAt" → s !! k = item !! k)
    by (intros k Hk; unfold s; now rewrite lookup_insert_ne).
  assert (Hsupplied : ∀ k v, k ≠ "updatedAt" → item !! k = Some v →
                             v ≠ VUndefined → r' !! k = Some v).
  { intros k v Hk Hv Hdef. unfold r'.
    rewrite lookup_assign, Hother, Hv by assumption. now destruct v. }
  assert (Hkept : ∀ k, k ≠ "updatedAt" →
                       item !! k = None ∨ item !! k = Some VUndefined →
                       r' !! k = r !! k).
  { intros k Hk Hv. unfold r'. rewrite lookup_assign, Hother by assumption.
    now destruct Hv as [-> | ->]. }
  assert (Hr'id : r' !! "id" = Some uid).
  { apply Hsupplied; [discriminate | exact Hitem |].
    intros ->. discriminate. }
  assert (Hr'c : r' !! "createdAt" ≠ Some VNull).
  { destruct (item !! "createdAt") as [v|] eqn:Ec.
    - destruct (decide (v = VUndefined)) as [->|Hv].
      + rewrite Hkept by (discriminate || now right). exact Hrc.
      + rewrite (Hsupplied _ v) by (discriminate || assumption). congruence.
    - rewrite Hkept by (discriminate || now left). exact Hrc. }
  assert (Hr'u : r' !! "updatedAt" = Some (VDate now)).
  { unfold r', s. now rewrite lookup_assign, lookup_insert_eq. }
  assert (Hr'has : has_id uid r' = true)
    by now apply has_id_spec.
  (* the one row that the WHERE clause selects *)
  pose proof (selected_unique uid r t Hnd Hr Hid) as Hsel.
  assert (Hadm : admissible [r'] (rejected (has_id uid) t) = true).
  { apply admissible_spec. split; [|split].
    - constructor; [|constructor]. unfold not_null, key, get_prop.
      rewrite Hr'id, Hr'u. cbn [from_option id].
      rewrite Hproper.
      rewrite !bool_decide_eq_false_2 by (assumption || discriminate).
      reflexivity.
    - apply NoDup_singleton.
    - intros v Hv. cbn in Hv. apply list_elem_of_singleton in Hv as ->.
      intros (y & Hy & Hin)%list_elem_of_fmap.
      apply list_elem_of_filter in Hin as [Hno _]. apply Hno.
      apply key_has_id; [|exact Hproper].
      rewrite <- Hy. unfold key, get_prop. now rewrite Hr'id. }
  assert (Htable :
            (λ x, if has_id uid x then assign s x else x) <$> t
            = (λ x, if has_id uid x then r' else x) <$> t).
  { apply list_fmap_ext. intros _ x Hx%list_elem_of_lookup_2.
    destruct (has_id uid x) eqn:Ex; [|reflexivity].
    assert (x ∈ selected (has_id uid) t) as Hin
      by now apply list_elem_of_filter.
    rewrite Hsel in Hin. now apply list_elem_of_singleton in Hin as ->. }
  exists r', ((λ x, if has_id uid x then r' else x) <$> t).
  split.
  { rewrite update_unfold. cbv zeta. fold uid s. rewrite Hsel.
    cbn [fmap list_fmap]. fold r'. rewrite Hadm. cbn [head].
    now rewrite Htable. }
  split; [reflexivity|]. split.
  { rewrite get_selected. fold (has_id uid).
    rewrite (selected_replaced (has_id uid) r' t Hr'has), Hsel.
    reflexivity. }
  split; [now rewrite Hr'id, Hrid|].
  split; [apply Hkept; discriminate|]. split; [exact Hr'u|]. split.
  { intros before _ Hlater. exists now. split; [exact Hr'u | exact Hlater]. }
  split; [exact Hsupplied | exact Hkept].
Qed.

(** The update of the test suite, [update({ id, name: "bar" })], ten
    milliseconds after the insertion. *)
Lemma update_refreshes_the_record_witness :
  let r : obj := {[ "id" := VStr "a"; "name" := VStr "foo";
                    "createdAt" := VDate 1000; "updatedAt" := VDate 1000 ]} in
  let item : obj := {[ "id" := VStr "a"; "name" := VStr "bar" ]} in
  let t := [r] in
  consistent t ∧ r ∈ t
  ∧ has_id (get_prop item "id") r = true
  ∧ item !! "createdAt" ≠ Some VNull
  ∧ ∃ r' t',
      update 1010 item t = (Ok r', t')
      ∧ t' = (λ x, if has_id (get_prop item "id") x then r' else x) <$> t
      ∧ get (get_prop item "id") t' = (Ok (Some r'), t')
      ∧ r' !! "id" = r !! "id"
      ∧ (item !! "createdAt" = None ∨ item !! "createdAt" = Some VUndefined →
         r' !! "createdAt" = r !! "createdAt")
      ∧ r' !! "updatedAt" = Some (VDate 1010)
      ∧ (∀ before, r !! "updatedAt" = Some (VDate before) → before < 1010 →
           ∃ after, r' !! "updatedAt" = Some (VDate after) ∧ before < after)
      ∧ (∀ k v, k ≠ "updatedAt" → item !! k = Some v → v ≠ VUndefined →
                r' !! k = Some v)
      ∧ (∀ k, k ≠ "updatedAt" →
              item !! k = None ∨ item !! k = Some VUndefined →
              r' !! k = r !! k).
Proof.
  intros r item t.
  assert (Hc : consistent t).
  { split; [repeat constructor | apply NoDup_singleton]. }
  assert (Hr : r ∈ t) by apply list_elem_of_here.
  assert (Hid : has_id (get_prop item "id") r = true) by reflexivity.
  assert (Hn : item !! "createdAt" ≠ Some VNull) by discriminate.
  split; [exact Hc|]. split; [exact Hr|]. split; [exact Hid|].
  split; [exact Hn|].
  apply (update_refreshes_the_record 1010 item t r Hc Hr Hid Hn).
Defined.

(** C2, as stated, fails in two ways.  An item that supplies [createdAt]
    has it written to the row, so the record does not keep the [createdAt]
    it had; and an update whose [now] is the time stamp that the row already
    carries leaves [updatedAt] equal to, not greater than, the former one. *)
Lemma update_can_change_createdAt :
  let r : obj := {[ "id" := VStr "a"; "name" := VStr "foo";
                    "createdAt" := VDate 1000; "updatedAt" := VDate 1000 ]} in
  (r !! "createdAt" = Some (VDate 1000)
   ∧ returned_field "createdAt"
       (update 1010 {[ "id" := VStr "a"; "createdAt" := VDate 0 ]} [r])
     = Some (VDate 0))
  ∧ (r !! "updatedAt" = Some (VDate 1000)
     ∧ returned_field "updatedAt"
         (update 1000 {[ "id" := VStr "a"; "name" := VStr "bar" ]} [r])
       = Some (VDate 1000)).
Proof. intros r. repeat split; vm_compute; reflexivity. Qed.

(* ===================================================================== *)
(** ** The test suite, replayed *)
(* ===================================================================== *)

(** What the first test expects: the inserted record is found; the update
    keeps the id and [createdAt], refreshes [updatedAt] and changes the
    name; the deleted record is the updated one; a second update and a
    second delete fail with "no result". *)
Example scenario_crud_outcome :
  let inserted :=
    fields {[ "id" := VStr "id-0"; "name" := VStr "foo";
              "createdAt" := VDate 1000; "updatedAt" := VDate 1000 ]} in
  let updated :=
    fields {[ "id" := VStr "id-0"; "name" := VStr "bar";
              "createdAt" := VDate 1000; "updatedAt" := VDate 1010 ]} in
  scenario_crud "id-0" []
  = (Ok ([], Some inserted, [inserted], updated, [updated], [updated],
         Some updated, Some updated, [], of_Z 1, updated, [], of_Z 0,
         Err NoResultError, Err NoResultError), []).
Proof. vm_compute. reflexivity. Qed.

(** What the third test expects: the batch comes back in order, with one
    time stamp and distinct ids; [deleteBy] returns the rows it removes;
    [truncate] leaves nothing. *)
Example scenario_many_outcome :
  let row (i : nat) (v : Z) :=
    fields {[ "id" := VStr (drawn i); "value" := VNum v;
              "createdAt" := VDate 2000; "updatedAt" := VDate 2000 ]} in
  scenario_many drawn []
  = (Ok ([row 0%nat 0; row 1%nat 1; row 2%nat 2; row 3%nat 3],
         [row 2%nat 2; row 3%nat 3],
         [row 0%nat 0; row 1%nat 1],
         [row 0%nat 0],
         [row 1%nat 1],
         []), []).
Proof. vm_compute. reflexivity. Qed.

(* ===================================================================== *)
(** ** Lookup by id *)
(* ===================================================================== *)

Section ById.

Implicit Types (r item : obj) (t : Table) (id : value) (p : obj → bool).

Lemma exact_match_singleton (k : string) (v : value) r :
  exact_match {[ k := v ]} r = sql_eq (r !! k) v.
Proof.
  unfold exact_match. apply eq_true_iff_eq.
  now rewrite bool_decide_eq_true, map_Forall_singleton.
Qed.

(** The exact-match object [{ id }] stands for carrying the id. *)
Lemma denotes_id id : denotes (Filter {[ "id" := id ]}) (has_id id).
Proof. intros r. unfold has_id. now rewrite exact_match_singleton. Qed.

Lemma sql_eq_lookup (cell : option value) (v : value) :
  nullish v = false → sql_eq cell v = true ↔ cell = Some v.
Proof.
  intros Hv. unfold sql_eq. destruct cell as [c|]; [|split; discriminate].
  rewrite Hv, !andb_true_iff, negb_true_iff, bool_decide_eq_true. cbn.
  split.
  - now intros [_ ->].
  - intros [= ->]. now rewrite Hv.
Qed.

Lemma sql_eq_nullish (cell : option value) (v : value) :
  nullish v = true → sql_eq cell v = false.
Proof.
  intros Hv. unfold sql_eq. destruct cell as [c|]; [|reflexivity].
  rewrite Hv. cbn. now rewrite andb_false_r.
Qed.

Lemma selected_ext p p' t : (∀ r, p r = p' r) → selected p t = selected p' t.
Proof. intros H. apply list_filter_iff. intros r. now rewrite H. Qed.

Lemma rejected_ext p p' t : (∀ r, p r = p' r) → rejected p t = rejected p' t.
Proof. intros H. apply list_filter_iff. intros r. now rewrite H. Qed.

Lemma elem_of_selected p t r : r ∈ selected p t ↔ r ∈ t ∧ p r = true.
Proof. unfold selected. rewrite list_elem_of_filter. tauto. Qed.

Lemma elem_of_rejected p t r : r ∈ rejected p t ↔ r ∈ t ∧ p r = false.
Proof.
  unfold rejected. rewrite list_elem_of_filter.
  destruct (p r); intuition congruence.
Qed.

Lemma selected_rejected p t : selected p (rejected p t) = [].
Proof.
  apply selected_none. intros r Hr. now apply elem_of_rejected in Hr.
Qed.

Lemma length_selected_rejected p t :
  (length t = length (selected p t) + length (rejected p t))%nat.
Proof.
  unfold selected, rejected. induction t as [|x t IH]; [reflexivity|].
  destruct (p x) eqn:E.
  - rewrite filter_cons_True, filter_cons_False by (rewrite E; congruence).
    cbn. lia.
  - rewrite filter_cons_False, filter_cons_True by (rewrite E; congruence).
    cbn. lia.
Qed.

Lemma selected_app p t1 t2 :
  selected p (t1 ++ t2) = selected p t1 ++ selected p t2.
Proof. apply filter_app. Qed.

(** No row of a table carries an id that is not among its keys. *)
Lemma fresh_not_selected id t : id ∉ keys t → selected (has_id id) t = [].
Proof.
  intros Hfresh. apply selected_none. intros r Hr.
  destruct (has_id id r) eqn:E; [|reflexivity].
  destruct Hfresh. destruct (has_id_key id r E) as [<- _].
  now apply list_elem_of_fmap_2.
Qed.

End ById.

(** X1.  A record that [insert] has stored is the one that [get] returns
    for its id: when the id that the item ends up with is a proper value
    not yet in the table, [insert] succeeds and [get] on that id then
    returns the inserted record, and [findAll] returns it last. *)
Theorem get_after_insert (now : Z) (uuid : string) (item : obj) (t : Table) :
  nullish (chosen_id uuid item) = false →
  chosen_id uuid item ∉ keys t →
  ∃ rec t',
    insert now uuid item t = (Ok (Some rec), t')
    ∧ get (chosen_id uuid item) t' = (Ok (Some rec), t')
    ∧ findAll t' = (Ok (t ++ [rec]), t').
Proof.
  intros Hproper Hfresh.
  set (rec := defined (insert_values now uuid item)).
  assert (Hkey : key rec = chosen_id uuid item) by apply key_inserted.
  exists rec, (t ++ [rec]). split; [|split].
  - unfold insert, bind. rewrite execute_insert. cbn [fmap list_fmap].
    fold rec. rewrite bool_decide_eq_false_2 by discriminate.
    replace (admissible [rec] t) with true; [reflexivity|].
    symmetry. apply admissible_spec. split; [|split].
    + constructor; [|constructor]. unfold rec.
      rewrite not_null_inserted. now apply negb_true_iff.
    + apply NoDup_singleton.
    + intros v Hv. cbn in Hv. rewrite Hkey in Hv.
      now apply list_elem_of_singleton in Hv as ->.
  - rewrite get_selected. fold (has_id (chosen_id uuid item)).
    rewrite selected_app, (fresh_not_selected _ t Hfresh). cbn [app].
    unfold selected. rewrite filter_cons_True, filter_nil; [reflexivity|].
    now apply key_has_id.
  - apply findAll_all.
Qed.

(** The insertion of the test suite, then [get]. *)
Lemma get_after_insert_witness :
  let item : obj := {[ "name" := VStr "foo" ]} in
  nullish (chosen_id "3f0c" item) = false
  ∧ (chosen_id "3f0c" item ∉ keys [])
  ∧ ∃ rec t',
      insert 1000 "3f0c" item [] = (Ok (Some rec), t')
      ∧ get (chosen_id "3f0c" item) t' = (Ok (Some rec), t')
      ∧ findAll t' = (Ok ([] ++ [rec]), t').
Proof.
  intros item. split; [reflexivity|]. split; [apply not_elem_of_nil|].
  apply (get_after_insert 1000 "3f0c" item []);
    [reflexivity | apply not_elem_of_nil].
Defined.

(** X2.  In a table that respects its primary key, [get] on a proper id
    returns a row exactly when that row is in the table and has the id
    under ["id"]; it returns no row exactly when no row has it. *)
Theorem get_finds_the_row_with_the_id (id : value) (t : Table) :
  NoDup (keys t) → nullish id = false →
  ∃ found,
    get id t = (Ok found, t)
    ∧ (∀ r, found = Some r ↔ r ∈ t ∧ r !! "id" = Some id)
    ∧ (found = None ↔ ∀ r, r ∈ t → r !! "id" ≠ Some id).
Proof.
  intros Hnd Hproper. exists (head (selected (has_id id) t)).
  split; [apply get_selected|].
  assert (Hhas : ∀ r, has_id id r = true ↔ r !! "id" = Some id)
    by (intros r; now apply has_id_spec).
  split.
  - intros r. split.
    + intros Hhead. apply head_Some_elem_of in Hhead.
      apply elem_of_selected in Hhead as [Hin Hid]. split; [exact Hin|].
      now apply Hhas.
    + intros [Hin Hid]. apply Hhas in Hid.
      now rewrite (selected_unique id r t Hnd Hin Hid).
  - rewrite head_None, selected_nil_iff. split; intros H r Hr.
    + intros Hid. apply Hhas in Hid. specialize (H r Hr). congruence.
    + destruct (has_id id r) eqn:E; [|reflexivity].
      apply Hhas in E. now destruct (H r Hr).
Qed.

Lemma get_finds_the_row_with_the_id_witness :
  let t : Table := [ {[ "id" := VStr "a"; "name" := VStr "foo" ]};
                     {[ "id" := VStr "b"; "name" := VStr "bar" ]} ] in
  NoDup (keys t) ∧ nullish (VStr "b") = false
  ∧ ∃ found,
      get (VStr "b") t = (Ok found, t)
      ∧ (∀ r, found = Some r ↔ r ∈ t ∧ r !! "id" = Some (VStr "b"))
      ∧ (found = None ↔ ∀ r, r ∈ t → r !! "id" ≠ Some (VStr "b")).
Proof.
  intros t.
  assert (Hnd : NoDup (keys t)).
  { apply NoDup_cons. split; [|apply NoDup_singleton].
    intros H. apply list_elem_of_singleton in H. discriminate. }
  split; [exact Hnd|]. split; [reflexivity|].
  apply (get_finds_the_row_with_the_id (VStr "b") t Hnd). reflexivity.
Defined.

(** X3.  [get(id)] is [findOneBy({ id })]: for every id and table the two
    calls return the same outcome. *)
Theorem get_is_findOneBy_on_id (id : value) (t : Table) :
  get id t = findOneBy (Filter {[ "id" := id ]}) t.
Proof.
  rewrite get_selected.
  rewrite (findOneBy_selected _ (has_id id)) by apply denotes_id.
  reflexivity.
Qed.

(** X4.  For a condition that stands for the row predicate [p],
    [findOneBy] returns the first of the rows that [findBy] returns: a row
    of the table that matches, and no row exactly when no row of the table
    matches. *)
Theorem findOneBy_returns_the_first_match (c : Condition) (p : obj → bool)
    (t : Table) :
  denotes c p →
  ∃ found rows,
    findOneBy c t = (Ok found, t)
    ∧ findBy c t = (Ok rows, t)
    ∧ found = head rows
    ∧ (∀ r, found = Some r → r ∈ t ∧ p r = true)
    ∧ (found = None ↔ ∀ r, r ∈ t → p r = false).
Proof.
  intros Hd. exists (head (selected p t)), (selected p t).
  split; [now apply findOneBy_selected|].
  split; [now apply findBy_selected|].
  split; [reflexivity|]. split.
  - intros r Hr. apply head_Some_elem_of in Hr. now apply elem_of_selected.
  - now rewrite head_None, selected_nil_iff.
Qed.

Lemma findOneBy_returns_the_first_match_witness :
  let t : Table := [ {[ "id" := VStr "a"; "name" := VStr "foo" ]};
                     {[ "id" := VStr "b"; "name" := VStr "bar" ]} ] in
  let c := Filter {[ "name" := VStr "bar" ]} in
  let p := exact_match {[ "name" := VStr "bar" ]} in
  denotes c p
  ∧ ∃ found rows,
      findOneBy c t = (Ok found, t)
      ∧ findBy c t = (Ok rows, t)
      ∧ found = head rows
      ∧ (∀ r, found = Some r → r ∈ t ∧ p r = true)
      ∧ (found = None ↔ ∀ r, r ∈ t → p r = false).
Proof.
  intros t c p. split; [apply denotes_Filter|].
  apply (findOneBy_returns_the_first_match c p t). apply denotes_Filter.
Defined.

(* ===================================================================== *)
(** ** Exact-match objects *)
(* ===================================================================== *)

Section ExactMatch.

Implicit Types (r : obj) (o : obj) (t : Table).

Lemma exact_match_true o r :
  exact_match o r = true ↔ ∀ k v, o !! k = Some v → sql_eq (r !! k) v = true.
Proof. unfold exact_match. now rewrite bool_decide_eq_true. Qed.

Lemma exact_match_nullish o (k : string) (v : value) r :
  o !! k = Some v → nullish v = true → exact_match o r = false.
Proof.
  intros Hk Hv. destruct (exact_match o r) eqn:E; [|reflexivity].
  rewrite exact_match_true in E. specialize (E k v Hk).
  now rewrite sql_eq_nullish in E.
Qed.

End ExactMatch.

(** X5.  An exact-match object one of whose values is null or undefined
    matches no row, whatever the table holds: [findBy] returns the empty
    sequence, [findOneBy] no row, [count] 0, and [deleteBy] deletes
    nothing.  The key is compared with SQL equality, it is not skipped. *)
Theorem nullish_filter_value_matches_nothing (o : obj) (k : string)
    (v : value) (t : Table) :
  o !! k = Some v → nullish v = true →
  findBy (Filter o) t = (Ok [], t)
  ∧ findOneBy (Filter o) t = (Ok None, t)
  ∧ count (Filter o) t = (Ok (of_Z 0), t)
  ∧ deleteBy (Filter o) t = (Ok [], t).
Proof.
  intros Hk Hv.
  assert (Hnone : selected (exact_match o) t = []).
  { apply selected_none. intros r _. now apply (exact_match_nullish o k v). }
  assert (Hall : rejected (exact_match o) t = t).
  { apply rejected_none. intros r _. now apply (exact_match_nullish o k v). }
  rewrite (findBy_selected _ _ t (denotes_Filter o)).
  rewrite (findOneBy_selected _ _ t (denotes_Filter o)).
  rewrite (count_selected _ _ t (denotes_Filter o)).
  rewrite (deleteBy_selected _ _ t (denotes_Filter o)).
  rewrite Hnone, Hall. repeat split.
Qed.

(** [findBy({ name: undefined })] on a table with a row. *)
Lemma nullish_filter_value_matches_nothing_witness :
  let o : obj := {[ "name" := VUndefined ]} in
  let t : Table := [ {[ "id" := VStr "a"; "name" := VStr "foo" ]} ] in
  o !! "name" = Some VUndefined ∧ nullish VUndefined = true
  ∧ findBy (Filter o) t = (Ok [], t)
  ∧ findOneBy (Filter o) t = (Ok None, t)
  ∧ count (Filter o) t = (Ok (of_Z 0), t)
  ∧ deleteBy (Filter o) t = (Ok [], t).
Proof.
  intros o t. split; [reflexivity|]. split; [reflexivity|].
  apply (nullish_filter_value_matches_nothing o "name" VUndefined t);
    reflexivity.
Defined.

(** X6.  For an exact-match object whose values are all proper (neither
    null nor undefined), [findBy] returns, in table order, exactly the rows
    of the table that have every key of the object with the value the
    object gives it: the pairs are ANDed. *)
Theorem findBy_returns_the_rows_with_all_pairs (o : obj) (t : Table) :
  (∀ k v, o !! k = Some v → nullish v = false) →
  ∃ rows,
    findBy (Filter o) t = (Ok rows, t)
    ∧ rows `sublist_of` t
    ∧ ∀ r, r ∈ rows ↔ r ∈ t ∧ ∀ k v, o !! k = Some v → r !! k = Some v.
Proof.
  intros Hproper. exists (selected (exact_match o) t).
  split; [apply findBy_selected, denotes_Filter|].
  split; [apply sublist_filter|].
  intros r. rewrite elem_of_selected, exact_match_true.
  split; intros [Hin H]; (split; [exact Hin|]); intros k v Hk.
  - apply sql_eq_lookup; [now apply (Hproper k)|now apply H].
  - apply sql_eq_lookup; [now apply (Hproper k)|now apply H].
Qed.

Lemma findBy_returns_the_rows_with_all_pairs_witness :
  let o : obj := {[ "name" := VStr "bar" ]} in
  let t : Table := [ {[ "id" := VStr "a"; "name" := VStr "foo" ]};
                     {[ "id" := VStr "b"; "name" := VStr "bar" ]} ] in
  (∀ k v, o !! k = Some v → nullish v = false)
  ∧ ∃ rows,
      findBy (Filter o) t = (Ok rows, t)
      ∧ rows `sublist_of` t
      ∧ ∀ r, r ∈ rows ↔ r ∈ t ∧ ∀ k v, o !! k = Some v → r !! k = Some v.
Proof.
  intros o t.
  assert (H : ∀ k v, o !! k = Some v → nullish v = false).
  { intros k v Hk. apply lookup_singleton_Some in Hk as [_ <-]. reflexivity. }
  split; [exact H|].
  apply (findBy_returns_the_rows_with_all_pairs o t H).
Defined.

(* ===================================================================== *)
(** ** Deletion *)
(* ===================================================================== *)

(** X7.  [delete(id)] returns the row that [get(id)] returns beforehand,
    and fails with "no result" when [get] finds none; afterwards [get]
    finds no row with that id and a second [delete] fails with "no
    result".  This holds for every table and every id. *)
Theorem delete_returns_what_get_found (id : value) (t : Table) :
  (∃ found,
     get id t = (Ok found, t)
     ∧ (delete id t).1 = match found with
                         | Some r => Ok r
                         | None => Err NoResultError
                         end)
  ∧ get id (delete id t).2 = (Ok None, (delete id t).2)
  ∧ (delete id (delete id t).2).1 = Err NoResultError.
Proof.
  rewrite !delete_selected. cbn [fst snd]. fold (has_id id).
  rewrite !get_selected. fold (has_id id).
  rewrite selected_rejected. cbn [head].
  split; [|split; reflexivity].
  eexists. split; reflexivity.
Qed.

(** X8.  In a table that respects its primary key, [delete] on the id of a
    row removes that row and no other: it returns the row, the table has
    one row less, and the rows left are the other rows, in order. *)
Theorem delete_removes_one_row (id : value) (t : Table) (r : obj) :
  NoDup (keys t) → r ∈ t → has_id id r = true →
  ∃ t',
    delete id t = (Ok r, t')
    ∧ length t = S (length t')
    ∧ t' `sublist_of` t
    ∧ ∀ x, x ∈ t' ↔ x ∈ t ∧ x ≠ r.
Proof.
  intros Hnd Hr Hid.
  pose proof (selected_unique id r t Hnd Hr Hid) as Hsel.
  exists (rejected (has_id id) t).
  split.
  { rewrite delete_selected. fold (has_id id). now rewrite Hsel. }
  split.
  { rewrite (length_selected_rejected (has_id id) t), Hsel. reflexivity. }
  split; [apply sublist_filter|].
  intros x. rewrite elem_of_rejected. split; intros [Hin Hx]; split;
    try exact Hin.
  - intros ->. congruence.
  - destruct (has_id id x) eqn:E; [|reflexivity].
    assert (x ∈ selected (has_id id) t) as Hsx by now apply elem_of_selected.
    rewrite Hsel in Hsx. now apply list_elem_of_singleton in Hsx.
Qed.

Lemma delete_removes_one_row_witness :
  let a : obj := {[ "id" := VStr "a"; "name" := VStr "foo" ]} in
  let b : obj := {[ "id" := VStr "b"; "name" := VStr "bar" ]} in
  NoDup (keys [a; b]) ∧ b ∈ [a; b] ∧ has_id (VStr "b") b = true
  ∧ ∃ t',
      delete (VStr "b") [a; b] = (Ok b, t')
      ∧ length [a; b] = S (length t')
      ∧ t' `sublist_of` [a; b]
      ∧ ∀ x, x ∈ t' ↔ x ∈ [a; b] ∧ x ≠ b.
Proof.
  intros a b.
  assert (Hnd : NoDup (keys [a; b])).
  { apply NoDup_cons. split; [|apply NoDup_singleton].
    intros H. apply list_elem_of_singleton in H. discriminate. }
  assert (Hin : b ∈ [a; b]) by (right; left).
  assert (Hid : has_id (VStr "b") b = true) by reflexivity.
  split; [exact Hnd|]. split; [exact Hin|]. split; [exact Hid|].
  apply (delete_removes_one_row (VStr "b") [a; b] b Hnd Hin Hid).
Defined.

(** X9.  [delete(id)] leaves the table that [deleteBy({ id })] leaves, and
    returns the first of the rows that [deleteBy({ id })] returns, failing
    with "no result" where [deleteBy] returns the empty sequence. *)
Theorem delete_is_deleteBy_on_id (id : value) (t : Table) :
  ∃ removed t',
    deleteBy (Filter {[ "id" := id ]}) t = (Ok removed, t')
    ∧ delete id t = (match removed with
                     | r :: _ => Ok r
                     | [] => Err NoResultError
                     end, t').
Proof.
  exists (selected (has_id id) t), (rejected (has_id id) t).
  split; [apply deleteBy_selected, denotes_id|].
  rewrite delete_selected. fold (has_id id).
  now destruct (selected (has_id id) t).
Qed.

(** X10.  For a condition that stands for the row predicate [p], after
    [deleteBy] nothing matches any more: the rows returned and the rows
    left add up to the table, and on the table left [findBy] returns the
    empty sequence, [count] returns 0 and a second [deleteBy] deletes
    nothing. *)
Theorem deleteBy_leaves_no_match (c : Condition) (p : obj → bool) (t : Table) :
  denotes c p →
  ∃ removed t',
    deleteBy c t = (Ok removed, t')
    ∧ (length t = length removed + length t')%nat
    ∧ findBy c t' = (Ok [], t')
    ∧ count c t' = (Ok (of_Z 0), t')
    ∧ deleteBy c t' = (Ok [], t').
Proof.
  intros Hd. exists (selected p t), (rejected p t).
  split; [now apply deleteBy_selected|].
  split; [apply length_selected_rejected|].
  rewrite (findBy_selected c p), (count_selected c p),
    (deleteBy_selected c p) by assumption.
  rewrite selected_rejected.
  rewrite (rejected_none p (rejected p t))
    by (intros r Hr; now apply elem_of_rejected in Hr).
  repeat split.
Qed.

Lemma deleteBy_leaves_no_match_witness :
  let t : Table := [ {[ "id" := VStr "a"; "value" := VNum 5 ]};
                     {[ "id" := VStr "b"; "value" := VNum 1 ]} ] in
  let c := Callback (where_ (value_at_least 5)) in
  denotes c (value_at_least 5)
  ∧ ∃ removed t',
      deleteBy c t = (Ok removed, t')
      ∧ (length t = length removed + length t')%nat
      ∧ findBy c t' = (Ok [], t')
      ∧ count c t' = (Ok (of_Z 0), t')
      ∧ deleteBy c t' = (Ok [], t').
Proof.
  intros t c. split; [apply denotes_Callback_where_|].
  apply (deleteBy_leaves_no_match c (value_at_least 5) t).
  apply denotes_Callback_where_.
Defined.

(** X11.  [deleteBy({})], the empty exact-match object, deletes every row:
    it returns the whole table and leaves the table that [truncate]
    leaves, the empty one. *)
Theorem deleteBy_empty_object_deletes_all (t : Table) :
  deleteBy (Filter ∅) t = (Ok t, [])
  ∧ (truncate t).2 = (deleteBy (Filter ∅) t).2.
Proof.
  assert (Hall : ∀ r, exact_match ∅ r = true).
  { intros r. apply exact_match_true. intros k v Hk.
    now rewrite lookup_empty in Hk. }
  rewrite (deleteBy_selected _ _ t (denotes_Filter ∅)), truncate_empties.
  rewrite (selected_all _ t Hall), (rejected_all _ t Hall).
  split; reflexivity.
Qed.

(* ===================================================================== *)
(** ** What the writing methods keep *)
(* ===================================================================== *)

Section Invariants.

Implicit Types (q : Query) (r item : obj) (t : Table) (p : obj → bool).

(** X12.  [update] changes no id: whatever the item and the outcome, the
    table afterwards holds the ids it held, each as often as before, hence
    as many rows as before.  Nothing is said of the order of the rows, which
    the database does not fix. *)
Theorem update_keeps_the_ids (now : Z) item t :
  keys (update now item t).2 ≡ₚ keys t
  ∧ length (update now item t).2 = length t.
Proof.
  assert (Hkeys : keys (update now item t).2 = keys t).
  { rewrite update_unfold. cbv zeta.
    destruct (admissible _ _); cbn [snd]; [|reflexivity].
    unfold keys. rewrite <- list_fmap_compose. apply list_fmap_ext.
    intros _ r _. cbn.
    destruct (has_id (get_prop item "id") r) eqn:E; [|reflexivity].
    destruct (has_id_key _ r E) as [Hkey Hproper].
    pose proof (item_id_lookup item r E) as Hitem.
    rewrite Hkey. unfold key, get_prop at 1.
    rewrite lookup_assign, lookup_insert_ne, Hitem by discriminate.
    now destruct (get_prop item "id"). }
  split; [now rewrite Hkeys|].
  apply (f_equal length) in Hkeys. unfold keys in Hkeys.
  now rewrite !length_fmap in Hkeys.
Qed.

Lemma consistent_sublist t t' :
  t' `sublist_of` t → consistent t → consistent t'.
Proof.
  intros Hsub [Hnn Hnd]. split.
  - rewrite Forall_forall in *. intros r Hr. apply Hnn.
    eapply sublist_submseteq, elem_of_submseteq in Hsub; eauto.
  - apply (sublist_NoDup (keys t') (keys t) Hnd).
    unfold keys. now apply fmap_sublist.
Qed.

Lemma consistent_app t written :
  consistent t → admissible written t = true → consistent (t ++ written).
Proof.
  intros [Hnn Hnd] (Hw & Hwd & Hfresh)%admissible_spec. split.
  - now apply Forall_app.
  - unfold keys in *. rewrite fmap_app. apply NoDup_app.
    split; [exact Hnd|]. split; [|exact Hwd].
    intros v Hv Hv'. now apply (Hfresh v).
Qed.

(** Rewriting the selected rows in place gives, up to order, the rewritten
    rows and the rows left alone. *)
Lemma rewritten_Permutation p (f : obj → obj) t :
  (λ r, if p r then f r else r) <$> t
  ≡ₚ (f <$> selected p t) ++ rejected p t.
Proof.
  unfold selected, rejected. induction t as [|x t IH]; [reflexivity|].
  rewrite fmap_cons. destruct (p x) eqn:E.
  - rewrite filter_cons_True, filter_cons_False by (rewrite E; congruence).
    rewrite fmap_cons. cbn. now rewrite IH.
  - rewrite filter_cons_False, filter_cons_True by (rewrite E; congruence).
    rewrite IH. apply Permutation_middle.
Qed.

Lemma consistent_rewritten p (f : obj → obj) t :
  consistent t →
  admissible (f <$> selected p t) (rejected p t) = true →
  consistent ((λ r, if p r then f r else r) <$> t).
Proof.
  intros Hc Hadm.
  assert (Hkept : consistent (rejected p t))
    by (eapply consistent_sublist; [apply sublist_filter|exact Hc]).
  destruct Hkept as [Hknn Hknd].
  apply admissible_spec in Hadm as (Hw & Hwd & Hfresh).
  split.
  - rewrite rewritten_Permutation. now apply Forall_app.
  - unfold keys in *. rewrite rewritten_Permutation, fmap_app.
    apply NoDup_app. split; [exact Hwd|]. split; [exact Hfresh|exact Hknd].
Qed.

(** Whatever the statement, running it keeps a consistent table
    consistent. *)
Lemma execute_consistent q t : consistent t → consistent (execute q t).2.
Proof.
  intros Hc. unfold execute. destruct (q_kind q).
  - now destruct (project q _).
  - destruct (bool_decide _); [exact Hc|].
    destruct (admissible _ t) eqn:E; [|exact Hc].
    now apply consistent_app.
  - destruct (windowed q); [exact Hc|].
    destruct (admissible _ _) eqn:E; [|exact Hc].
    now apply (consistent_rewritten (matches q) (assign (q_set q))).
  - destruct (windowed q); [exact Hc|].
    eapply consistent_sublist; [apply sublist_filter|exact Hc].
Qed.

Lemma bind_consistent {A B} (m : Async A) (k : A → Async B) t :
  consistent (m t).2 → (∀ a t', consistent t' → consistent (k a t').2) →
  consistent (bind m k t).2.
Proof.
  intros Hm Hk. unfold bind. destruct (m t) as [[a|e] t']; cbn in *.
  - now apply Hk.
  - exact Hm.
Qed.

End Invariants.

(** X13.  The writing methods keep a table consistent: if no two rows
    share an id and no row has a null id or time stamp, the same holds of
    the table that [insert], [insertAll], [update], [delete], [deleteBy]
    (whatever the condition, callbacks included) and [truncate] leave,
    whether they succeed or fail. *)
Theorem writes_keep_the_table_consistent (t : Table) :
  consistent t →
  (∀ now uuid item, consistent (insert now uuid item t).2)
  ∧ (∀ now uuid items, consistent (insertAll now uuid items t).2)
  ∧ (∀ now item, consistent (update now item t).2)
  ∧ (∀ id, consistent (delete id t).2)
  ∧ (∀ c, consistent (deleteBy c t).2)
  ∧ consistent (truncate t).2.
Proof.
  intros Hc.
  assert (Hret : ∀ A (a : A) t', consistent t' → consistent (ret a t').2)
    by (intros; assumption).
  split.
  { intros now uuid item. unfold insert. apply bind_consistent.
    - now apply execute_consistent.
    - intros rows t' Ht'. now apply Hret. }
  split.
  { intros now uuid items. now apply execute_consistent. }
  split.
  { intros now item. unfold update, executeTakeFirstOrThrow.
    apply bind_consistent.
    - now apply execute_consistent.
    - intros rows t' Ht'. now destruct (head rows). }
  split.
  { intros id. unfold delete, executeTakeFirstOrThrow. apply bind_consistent.
    - now apply execute_consistent.
    - intros rows t' Ht'. now destruct (head rows). }
  split.
  { intros c. now apply execute_consistent. }
  unfold truncate. apply bind_consistent.
  - now apply execute_consistent.
  - intros rows t' Ht'. now apply Hret.
Qed.

Lemma writes_keep_the_table_consistent_witness :
  let t : Table := [ {[ "id" := VStr "a"; "createdAt" := VDate 1;
                        "updatedAt" := VDate 1 ]} ] in
  consistent t
  ∧ (∀ now uuid item, consistent (insert now uuid item t).2)
  ∧ (∀ now uuid items, consistent (insertAll now uuid items t).2)
  ∧ (∀ now item, consistent (update now item t).2)
  ∧ (∀ id, consistent (delete id t).2)
  ∧ (∀ c, consistent (deleteBy c t).2)
  ∧ consistent (truncate t).2.
Proof.
  intros t.
  assert (Hc : consistent t)
    by (split; [repeat constructor | apply NoDup_singleton]).
  split; [exact Hc|].
  apply (writes_keep_the_table_consistent t Hc).
Defined.

(* ===================================================================== *)
(** ** Time stamps *)
(* ===================================================================== *)

Section Stamps.

Implicit Types (r item : obj) (t : Table).

Lemma stamped_mono (now0 now : Z) r :
  now0 <= now → stamped now0 r → stamped now r.
Proof.
  intros Hle (c & u & Hc & Hu & Hcu). exists c, u.
  split; [exact Hc|]. split; [exact Hu|]. lia.
Qed.

Lemma stamped_inserted (now : Z) (uuid : string) item :
  stamped now (defined (insert_values now uuid item)).
Proof.
  destruct (inserted_row_fields now uuid item) as (_ & Hc & Hu & _).
  exists now, now. split; [exact Hc|]. split; [exact Hu|]. lia.
Qed.

Lemma stamped_updated (now0 now : Z) item r :
  now0 <= now → stamped now0 r →
  item !! "createdAt" = None ∨ item !! "createdAt" = Some VUndefined →
  stamped now (assign (<["updatedAt" := VDate now]> item) r).
Proof.
  intros Hle (c & u & Hc & Hu & Hcu) Hitem. exists c, now.
  split; [|split; [|lia]].
  - rewrite lookup_assign, lookup_insert_ne by discriminate.
    now destruct Hitem as [-> | ->].
  - now rewrite lookup_assign, lookup_insert_eq.
Qed.

Lemma insert_values_without_stamps (now : Z) (uuid : string) item :
  insert_values now uuid (without_stamps item) = insert_values now uuid item.
Proof.
  apply map_eq. intros k.
  destruct (decide (k = "updatedAt")) as [->|Hu];
    [now rewrite !insert_values_updatedAt|].
  destruct (decide (k = "createdAt")) as [->|Hc];
    [now rewrite !insert_values_createdAt|].
  destruct (decide (k = "id")) as [->|Hi].
  - rewrite !insert_values_id. unfold chosen_id, without_stamps.
    now rewrite !lookup_delete_ne by discriminate.
  - rewrite !insert_values_other by assumption. unfold without_stamps.
    now rewrite !lookup_delete_ne by congruence.
Qed.

End Stamps.

(** X14.  With a clock that does not run backwards, the time stamps stay
    in order: if every row has [createdAt <= updatedAt <= now0] and
    [now0 <= now], then after an [insert] or an [insertAll] at [now], and
    after an [update] at [now] whose item supplies no [createdAt], every
    row has [createdAt <= updatedAt <= now], whether the call succeeds or
    fails. *)
Theorem time_stamps_stay_ordered (now0 now : Z) (t : Table) :
  Forall (stamped now0) t → now0 <= now →
  (∀ uuid item, Forall (stamped now) (insert now uuid item t).2)
  ∧ (∀ uuid items, Forall (stamped now) (insertAll now uuid items t).2)
  ∧ (∀ item,
       item !! "createdAt" = None ∨ item !! "createdAt" = Some VUndefined →
       Forall (stamped now) (update now item t).2).
Proof.
  intros Ht Hle.
  assert (Ht' : Forall (stamped now) t).
  { eapply Forall_impl; [exact Ht|]. intros r. now apply stamped_mono. }
  split; [|split].
  - intros uuid item. unfold insert, bind. rewrite execute_insert.
    cbn [fmap list_fmap].
    destruct (bool_decide _); [exact Ht'|].
    destruct (admissible _ t); [|exact Ht'].
    cbn [snd ret]. apply Forall_app. split; [exact Ht'|].
    constructor; [apply stamped_inserted | constructor].
  - intros uuid items. rewrite insertAll_unfold. cbv zeta.
    destruct (bool_decide _); [exact Ht'|].
    destruct (admissible _ t); [|exact Ht'].
    cbn [snd]. apply Forall_app. split; [exact Ht'|].
    apply Forall_imap. intros i item _. apply stamped_inserted.
  - intros item Hitem. rewrite update_unfold. cbv zeta.
    destruct (admissible _ _); [|exact Ht'].
    cbn [snd]. apply Forall_fmap.
    eapply Forall_impl; [exact Ht|]. intros r Hr. cbn.
    destruct (has_id _ r).
    + now apply (stamped_updated now0).
    + now apply (stamped_mono now0).
Qed.

Lemma time_stamps_stay_ordered_witness :
  let t : Table := [ {[ "id" := VStr "a"; "createdAt" := VDate 1000;
                        "updatedAt" := VDate 1010 ]} ] in
  Forall (stamped 1010) t ∧ 1010 <= 1020
  ∧ (∀ uuid item, Forall (stamped 1020) (insert 1020 uuid item t).2)
  ∧ (∀ uuid items, Forall (stamped 1020) (insertAll 1020 uuid items t).2)
  ∧ (∀ item,
       item !! "createdAt" = None ∨ item !! "createdAt" = Some VUndefined →
       Forall (stamped 1020) (update 1020 item t).2).
Proof.
  intros t.
  assert (Ht : Forall (stamped 1010) t).
  { constructor; [|constructor]. exists 1000, 1010.
    split; [reflexivity|]. split; [reflexivity|]. lia. }
  split; [exact Ht|]. split; [lia|].
  apply (time_stamps_stay_ordered 1010 1020 t Ht). lia.
Defined.

(** X15.  [insert] and [insertAll] ignore time stamps that the caller
    supplies: an item with [createdAt] or [updatedAt] keys is inserted as
    the same item without them. *)
Theorem insert_ignores_supplied_time_stamps (now : Z) (t : Table) :
  (∀ uuid item,
     insert now uuid item t = insert now uuid (without_stamps item) t)
  ∧ (∀ uuid items,
       insertAll now uuid items t
       = insertAll now uuid (without_stamps <$> items) t).
Proof.
  split.
  - intros uuid item. unfold insert.
    now rewrite insert_values_without_stamps.
  - intros uuid items. unfold insertAll. rewrite imap_fmap.
    f_equal. f_equal. f_equal. apply imap_ext. intros i item _. cbn.
    now rewrite insert_values_without_stamps.
Qed.

(* ===================================================================== *)
(** ** Batches and single insertions *)
(* ===================================================================== *)

Section Batches.

Implicit Types (r item : obj) (t : Table) (items rows : list obj).

Lemma admissible_nil t : admissible [] t = true.
Proof. apply admissible_spec. repeat split; [constructor | constructor | inversion 1]. Qed.

(** A batch is admissible when its first row is, and the others are once
    the first row has joined the table. *)
Lemma admissible_cons r rows t :
  admissible (r :: rows) t
  = admissible [r] t && admissible rows (t ++ [r]).
Proof.
  apply eq_true_iff_eq. rewrite andb_true_iff, !admissible_spec.
  unfold keys. rewrite fmap_app. cbn [fmap list_fmap].
  rewrite !Forall_cons, !NoDup_cons.
  setoid_rewrite elem_of_app. setoid_rewrite elem_of_cons.
  setoid_rewrite elem_of_nil.
  split.
  - intros ((Hr & Hrows) & (Hk & Hnd) & Hfresh).
    repeat split; try assumption; try constructor.
    + tauto.
    + intros v [-> | []]. apply Hfresh. now left.
    + intros v Hv [Hin | [-> | []]]; [|contradiction].
      apply (Hfresh v); [now right | exact Hin].
  - intros ((Hr & _ & Hf1) & Hrows & Hnd & Hf2).
    repeat split; try tauto.
    + intros Hin. apply (Hf2 _ Hin). right. now left.
    + intros v [-> | Hv]; [apply Hf1; now left|].
      intros Hin. apply (Hf2 v Hv). now left.
Qed.

Lemma insert_unfold (now : Z) (uuid : string) item t :
  insert now uuid item t
  = if admissible [defined (insert_values now uuid item)] t
    then (Ok (Some (defined (insert_values now uuid item))),
          t ++ [defined (insert_values now uuid item)])
    else (Err ConstraintViolation, t).
Proof.
  unfold insert, bind. rewrite execute_insert. cbn [fmap list_fmap].
  rewrite bool_decide_eq_false_2 by discriminate.
  now destruct (admissible _ t).
Qed.

Lemma insert_each_cons (now : Z) (uuid : nat → string) item rest t :
  insert_each now uuid (item :: rest) t
  = match insert now (uuid 0%nat) item t with
    | (Ok first, t1) =>
        match insert_each now (λ i, uuid (S i)) rest t1 with
        | (Ok others, t2) => (Ok (first :: others), t2)
        | (Err e, t2) => (Err e, t2)
        end
    | (Err e, t1) => (Err e, t1)
    end.
Proof. reflexivity. Qed.

(** The loop of single insertions stores the rows of the batch when the
    batch is admissible, and stops at a constraint violation when not. *)
Lemma insert_each_rows (now : Z) items :
  ∀ (uuid : nat → string) t,
    let rows := imap (λ i item, defined (insert_values now (uuid i) item))
                     items in
    (admissible rows t = true →
     insert_each now uuid items t = (Ok (Some <$> rows), t ++ rows))
    ∧ (admissible rows t = false →
       (insert_each now uuid items t).1 = Err ConstraintViolation).
Proof.
  induction items as [|item rest IH]; intros uuid t; cbv zeta.
  - rewrite imap_nil, admissible_nil, app_nil_r. cbn [insert_each].
    split; [reflexivity|discriminate].
  - rewrite imap_cons, insert_each_cons, insert_unfold, admissible_cons.
    specialize (IH (λ i, uuid (S i))
                   (t ++ [defined (insert_values now (uuid 0%nat) item)])).
    cbv zeta in IH. destruct IH as [IHok IHerr].
    change (imap ((λ i item0, defined (insert_values now (uuid i) item0)) ∘ S)
                 rest)
      with (imap (λ i item0, defined (insert_values now (uuid (S i)) item0))
                 rest).
    destruct (admissible [_] t); cbn [andb].
    + split; intros Hadm.
      * rewrite (IHok Hadm). cbn [fmap list_fmap].
        now rewrite <- app_assoc.
      * specialize (IHerr Hadm).
        destruct (insert_each _ _ _ _) as [[others|e] t']; cbn in *;
          [discriminate | exact IHerr].
    + split; [discriminate|reflexivity].
Qed.

End Batches.

(** X16.  A batch is the sequence of its single insertions: for a batch
    that is not empty, [insertAll] returns records and leaves a table
    exactly when inserting the items one after the other, with the same
    [now] and the same UUIDs, returns those records and leaves that
    table.  And [insertAll] is all or nothing: when it fails, the table is
    as before. *)
Theorem insertAll_is_the_sequence_of_inserts (now : Z) (uuid : nat → string)
    (items : list obj) (t : Table) :
  items ≠ [] →
  (∀ rows t',
     insertAll now uuid items t = (Ok rows, t')
     ↔ insert_each now uuid items t = (Ok (Some <$> rows), t'))
  ∧ (∀ e t', insertAll now uuid items t = (Err e, t') → t' = t).
Proof.
  intros Hne.
  pose proof (insertAll_unfold now uuid items t) as Hrun. cbv zeta in Hrun.
  destruct (insert_each_rows now items uuid t) as [Hok Herr].
  set (rows0 := imap (λ i item, defined (insert_values now (uuid i) item)) items)
    in *.
  assert (Hnil : bool_decide (rows0 = []) = false).
  { apply bool_decide_eq_false_2. intros H. apply Hne.
    apply nil_length_inv. apply (f_equal length) in H.
    unfold rows0 in H. now rewrite length_imap in H. }
  rewrite Hnil in Hrun. rewrite Hrun.
  destruct (decide (admissible rows0 t = true)) as [Ha|Ha].
  - rewrite Ha, (Hok Ha). split.
    + intros rows t'. split.
      * now intros [= <- <-].
      * intros [= Hrows <-]. apply (inj (fmap Some)) in Hrows.
        now rewrite Hrows.
    + discriminate.
  - apply not_true_is_false in Ha. rewrite Ha. specialize (Herr Ha). split.
    + intros rows t'. split; [discriminate|].
      intros H. rewrite H in Herr. discriminate.
    + now intros e t' [= _ <-].
Qed.

Lemma insertAll_is_the_sequence_of_inserts_witness :
  let items : list obj := [ {[ "value" := VNum 0 ]}; {[ "value" := VNum 1 ]} ] in
  items ≠ []
  ∧ (∀ rows t',
       insertAll 2000 drawn items [] = (Ok rows, t')
       ↔ insert_each 2000 drawn items [] = (Ok (Some <$> rows), t'))
  ∧ (∀ e t', insertAll 2000 drawn items [] = (Err e, t') → t' = []).
Proof.
  intros items.
  assert (Hne : items ≠ []) by discriminate.
  split; [exact Hne|].
  apply (insertAll_is_the_sequence_of_inserts 2000 drawn items [] Hne).
Defined.

(** X17.  An insertion raises the count of a condition by one when the
    inserted record matches it and leaves it as it is otherwise; [count()]
    without a condition rises by one.  This holds when the table accepts
    the row (its id is proper and new) and the condition stands for a row
    predicate [p]. *)
Theorem count_after_insert (now : Z) (uuid : string) (item : obj)
    (c : Condition) (p : obj → bool) (t : Table) :
  nullish (chosen_id uuid item) = false →
  chosen_id uuid item ∉ keys t →
  denotes c p →
  ∃ rec t' n,
    insert now uuid item t = (Ok (Some rec), t')
    ∧ count c t = (Ok (of_Z n), t)
    ∧ count c t' = (Ok (of_Z (n + if p rec then 1 else 0)), t')
    ∧ count (Filter ∅) t' = (Ok (of_Z (Z.of_nat (length t) + 1)), t').
Proof.
  intros Hproper Hfresh Hd.
  set (rec := defined (insert_values now uuid item)).
  exists rec, (t ++ [rec]), (Z.of_nat (length (selected p t))).
  split.
  { rewrite insert_unfold. fold rec.
    replace (admissible [rec] t) with true; [reflexivity|].
    symmetry. apply admissible_spec. split; [|split].
    - constructor; [|constructor]. unfold rec.
      rewrite not_null_inserted. now apply negb_true_iff.
    - apply NoDup_singleton.
    - intros v Hv. cbn in Hv. unfold rec in Hv. rewrite key_inserted in Hv.
      now apply list_elem_of_singleton in Hv as ->. }
  split; [now apply count_selected|].
  split.
  - rewrite (count_selected c p) by assumption.
    rewrite selected_app, length_app. unfold selected at 2.
    destruct (p rec) eqn:E.
    + rewrite filter_cons_True by exact E. cbn [length filter].
      do 3 f_equal. rewrite filter_nil. cbn. lia.
    + rewrite filter_cons_False by (rewrite E; discriminate).
      rewrite filter_nil. cbn [length]. do 3 f_equal. lia.
  - rewrite (count_selected _ _ _ (denotes_Filter ∅)).
    rewrite selected_all
      by (intros r; apply exact_match_true; intros k v Hk;
          now rewrite lookup_empty in Hk).
    rewrite length_app. cbn [length]. do 3 f_equal. lia.
Qed.

Lemma count_after_insert_witness :
  let item : obj := {[ "value" := VNum 7 ]} in
  let t : Table := [ {[ "id" := VStr "a"; "value" := VNum 5 ]} ] in
  let c := Callback (where_ (value_at_least 5)) in
  let p := value_at_least 5 in
  nullish (chosen_id "3f0c" item) = false
  ∧ (chosen_id "3f0c" item ∉ keys t)
  ∧ denotes c p
  ∧ ∃ rec t' n,
      insert 1000 "3f0c" item t = (Ok (Some rec), t')
      ∧ count c t = (Ok (of_Z n), t)
      ∧ count c t' = (Ok (of_Z (n + if p rec then 1 else 0)), t')
      ∧ count (Filter ∅) t' = (Ok (of_Z (Z.of_nat (length t) + 1)), t').
Proof.
  intros item t c p.
  assert (Hproper : nullish (chosen_id "3f0c" item) = false) by reflexivity.
  assert (Hfresh : chosen_id "3f0c" item ∉ keys t).
  { intros H. apply list_elem_of_singleton in H. discriminate. }
  assert (Hd : denotes c p) by apply denotes_Callback_where_.
  split; [exact Hproper|]. split; [exact Hfresh|]. split; [exact Hd|].
  apply (count_after_insert 1000 "3f0c" item c p t Hproper Hfresh Hd).
Defined.

(* ===================================================================== *)
(** ** Pages at the edges *)
(* ===================================================================== *)

Section Edges.

Implicit Types (q : Query) (r : obj) (t : Table) (p : obj → bool)
               (c : Condition) (f : Query → Query).

(** A page whose window the database rejects. *)
Lemma findAllPaginated_rejected (page pageSize : Z) c p t :
  denotes c p → pageSize < 0 ∨ (page - 1) * pageSize < 0 →
  findAllPaginated page pageSize c t = (Err QueryError, t).
Proof.
  intros Hd Hneg.
  destruct (narrows_applyCondition c p Hd (selectAll select_))
    as [(Hk & Hs & Hl & Ho & _) Hm].
  unfold findAllPaginated, bind. rewrite (count_selected c p) by exact Hd.
  rewrite (execute_select _ p)
    by (assumption || (intros r; cbn; now rewrite <- (Hm r))).
  unfold window. cbn [limit offset q_limit q_offset negative].
  destruct (Z.ltb_spec pageSize 0); [reflexivity|].
  destruct (Z.ltb_spec ((page - 1) * pageSize) 0); [reflexivity|].
  lia.
Qed.

(** A COUNT query returns one row, before LIMIT and OFFSET apply. *)
Lemma execute_count q p t :
  q_kind q = SelectQuery → q_selections q = [CountStar] →
  (∀ r, matches q r = p r) →
  execute q t
  = (window q [ {[ "count" := VStr (decimal (length (selected p t))) ]} ], t).
Proof.
  intros Hk Hs Hm. unfold execute. rewrite Hk.
  now rewrite (project_count q _ Hs), (matched_selected q p t Hm).
Qed.

Lemma drop_short {A} (k : Z) (l : list A) :
  0 <= k → (length l ≤ 1)%nat →
  drop (Z.to_nat k) l = if k =? 0 then l else [].
Proof.
  intros Hk Hl. destruct (Z.eqb_spec k 0) as [->|Hne]; [reflexivity|].
  apply drop_ge. lia.
Qed.

Lemma take_short {A} (n : Z) (l : list A) :
  0 <= n → (length l ≤ 1)%nat →
  take (Z.to_nat n) l = if 1 <=? n then l else [].
Proof.
  intros Hn Hl. destruct (Z.leb_spec 1 n).
  - apply take_ge. lia.
  - replace n with 0 by lia. reflexivity.
Qed.

(** The window of a one-row result: the row, unless OFFSET skips it or
    LIMIT is 0. *)
Lemma window_singleton q (x : obj) :
  window q [x]
  = if negative (q_limit q) || negative (q_offset q) then Err QueryError
    else Ok (if (default 0 (q_offset q) =? 0) && (1 <=? default 1 (q_limit q))
             then [x] else []).
Proof.
  unfold window.
  destruct (negative (q_limit q)) eqn:El; [reflexivity|].
  destruct (negative (q_offset q)) eqn:Eo; [reflexivity|].
  cbn [orb]. f_equal.
  assert (Hk : 0 <= default 0 (q_offset q)).
  { destruct (q_offset q) as [k|]; cbn in *; [now apply Z.ltb_ge|lia]. }
  rewrite (drop_short _ [x] Hk) by (cbn; lia).
  destruct (q_limit q) as [n|]; cbn [from_option id] in *.
  - assert (Hn : 0 <= n) by now apply Z.ltb_ge.
    destruct (default 0 (q_offset q) =? 0).
    + rewrite (take_short n [x] Hn) by (cbn; lia).
      now destruct (1 <=? n).
    + rewrite take_nil. now destruct (1 <=? n).
  - now destruct (default 0 (q_offset q) =? 0).
Qed.

(** [count] under a callback [g], from the shape of the COUNT query. *)
Lemma count_of_callback (g : Query → Query) p t :
  q_kind (g select_) = SelectQuery → q_selections (g select_) = [] →
  (∀ r, matches (g select_) r = p r) →
  count (Callback g) t
  = (if negative (q_limit (g select_)) || negative (q_offset (g select_))
     then Err QueryError
     else if (default 0 (q_offset (g select_)) =? 0)
             && (1 <=? default 1 (q_limit (g select_)))
          then Ok (of_Z (Z.of_nat (length (selected p t))))
          else Err TypeError, t).
Proof.
  intros Hk Hs Hm. unfold count, executeTakeFirst, bind.
  cbn [applyCondition].
  rewrite (execute_count _ p)
    by (assumption || (cbn [select q_selections]; now rewrite Hs)).
  rewrite window_singleton. cbn [select q_limit q_offset].
  destruct (_ || _); [reflexivity|].
  destruct (_ && _); cbn [head ret throw]; [|reflexivity].
  rewrite lookup_singleton_eq.
  cbv [nullish_coalesce nullish toString].
  now rewrite parseInt_decimal.
Qed.

End Edges.

(** X18.  With a page size of 0, [findAllPaginated] succeeds with no data,
    whatever the page number; [rowCount] is still the number of matching
    rows, and [pageCount], the ceiling of a division by zero, is not a
    number of pages: it is [Infinity] when rows match and [NaN] when none
    does. *)
Theorem page_size_zero (page : Z) (c : Condition) (p : obj → bool)
    (t : Table) :
  denotes c p →
  ∃ pg,
    findAllPaginated page 0 c t = (Ok pg, t)
    ∧ data pg = []
    ∧ rowCount pg = of_Z (Z.of_nat (length (selected p t)))
    ∧ pageCount pg = match length (selected p t) with
                     | 0%nat => NaN
                     | S _ => Infinity
                     end.
Proof.
  intros Hd. eexists. split.
  { apply (findAllPaginated_selected _ _ c p); [assumption | lia | lia]. }
  cbn [data rowCount pageCount]. split; [reflexivity|].
  split; [reflexivity|].
  now destruct (length (selected p t)).
Qed.

Lemma page_size_zero_witness :
  let t : Table := [ {[ "id" := VStr "a"; "value" := VNum 5 ]} ] in
  let c := Callback (where_ (value_at_least 5)) in
  let p := value_at_least 5 in
  denotes c p
  ∧ ∃ pg,
      findAllPaginated 3 0 c t = (Ok pg, t)
      ∧ data pg = []
      ∧ rowCount pg = of_Z (Z.of_nat (length (selected p t)))
      ∧ pageCount pg = match length (selected p t) with
                       | 0%nat => NaN
                       | S _ => Infinity
                       end.
Proof.
  intros t c p. split; [apply denotes_Callback_where_|].
  apply (page_size_zero 3 c p t). apply denotes_Callback_where_.
Defined.

(** X19.  [findAllPaginated] does not check its window: a negative page
    size, or a page number below 1 with a positive page size, reaches the
    database as a negative LIMIT or OFFSET, and the call fails with the
    database's error after the count has run; the table is as before. *)
Theorem page_below_one_is_rejected (page pageSize : Z) (c : Condition)
    (p : obj → bool) (t : Table) :
  denotes c p →
  pageSize < 0 ∨ (page < 1 ∧ 0 < pageSize) →
  findAllPaginated page pageSize c t = (Err QueryError, t)
  ∧ count c t = (Ok (of_Z (Z.of_nat (length (selected p t)))), t).
Proof.
  intros Hd Hneg. split; [|now apply count_selected].
  apply (findAllPaginated_rejected page pageSize c p t Hd).
  destruct Hneg as [?|[? ?]]; [now left | right; nia].
Qed.

Lemma page_below_one_is_rejected_witness :
  let t : Table := [ {[ "id" := VStr "a"; "value" := VNum 5 ]} ] in
  let c := Filter ∅ in
  let p := exact_match ∅ in
  denotes c p ∧ (10 < 0 ∨ (0 < 1 ∧ 0 < 10))
  ∧ findAllPaginated 0 10 c t = (Err QueryError, t)
  ∧ count c t = (Ok (of_Z (Z.of_nat (length (selected p t)))), t).
Proof.
  intros t c p.
  assert (H : 10 < 0 ∨ (0 < 1 ∧ 0 < 10)) by (right; lia).
  split; [apply denotes_Filter|]. split; [exact H|].
  apply (page_below_one_is_rejected 0 10 c p t (denotes_Filter ∅) H).
Defined.

(** X20.  For a page number and a page size of at least 1, the page holds
    [min(pageSize, rowCount - (page - 1) * pageSize)] rows, and none when
    that is negative: a page past the last one is empty, and the first page
    of a page size that covers all matching rows is what [findBy]
    returns. *)
Theorem page_length (page pageSize : Z) (c : Condition) (p : obj → bool)
    (t : Table) :
  denotes c p → 1 <= page → 1 <= pageSize →
  ∃ pg,
    findAllPaginated page pageSize c t = (Ok pg, t)
    ∧ Z.of_nat (length (data pg))
      = Z.max 0 (Z.min pageSize
                   (Z.of_nat (length (selected p t)) - (page - 1) * pageSize))
    ∧ (Z.of_nat (length (selected p t)) <= (page - 1) * pageSize →
       data pg = [])
    ∧ (page = 1 → Z.of_nat (length (selected p t)) <= pageSize →
       findBy c t = (Ok (data pg), t)).
Proof.
  intros Hd Hpage Hsize. eexists. split.
  { apply (findAllPaginated_selected _ _ c p); [assumption | lia | nia]. }
  cbn [data]. split; [|split].
  - assert (Hoff : 0 <= (page - 1) * pageSize) by nia.
    rewrite length_take, length_drop.
    generalize dependent ((page - 1) * pageSize). intros off Hoff. lia.
  - assert (Hoff : 0 <= (page - 1) * pageSize) by nia.
    generalize dependent ((page - 1) * pageSize). intros off Hoff Hpast.
    rewrite drop_ge by lia. apply take_nil.
  - intros -> Hall. rewrite (findBy_selected c p) by assumption.
    replace ((1 - 1) * pageSize) with 0 by lia.
    change (Z.to_nat 0) with 0%nat. rewrite drop_0.
    rewrite take_ge by lia. reflexivity.
Qed.

Lemma page_length_witness :
  let t : Table := [ {[ "id" := VStr "a"; "value" := VNum 5 ]};
                     {[ "id" := VStr "b"; "value" := VNum 7 ]};
                     {[ "id" := VStr "c"; "value" := VNum 9 ]} ] in
  let c := Callback (where_ (value_at_least 5)) in
  let p := value_at_least 5 in
  denotes c p ∧ 1 <= 2 ∧ 1 <= 2
  ∧ ∃ pg,
      findAllPaginated 2 2 c t = (Ok pg, t)
      ∧ Z.of_nat (length (data pg))
        = Z.max 0 (Z.min 2 (Z.of_nat (length (selected p t)) - (2 - 1) * 2))
      ∧ (Z.of_nat (length (selected p t)) <= (2 - 1) * 2 → data pg = [])
      ∧ (2 = 1 → Z.of_nat (length (selected p t)) <= 2 →
         findBy c t = (Ok (data pg), t)).
Proof.
  intros t c p. split; [apply denotes_Callback_where_|].
  split; [lia|]. split; [lia|].
  apply (page_length 2 2 c p t); [apply denotes_Callback_where_|lia|lia].
Defined.

(* ===================================================================== *)
(** ** Callbacks that set LIMIT or OFFSET *)
(* ===================================================================== *)

(** X21.  A LIMIT that a callback sets does not reach [count]: for a
    callback that narrows by [p] and then sets LIMIT [n >= 1], [count]
    returns the number of all matching rows while [findBy] returns the
    first [n] of them, so the two differ when more than [n] rows match;
    and [findAllPaginated] replaces the LIMIT by its own, so it returns
    what it returns for the callback without the LIMIT. *)
Theorem count_ignores_a_callback_limit (f : Query → Query) (p : obj → bool)
    (n : Z) (t : Table) :
  narrows f p → 1 <= n →
  count (Callback (λ q, limit n (f q))) t
  = (Ok (of_Z (Z.of_nat (length (selected p t)))), t)
  ∧ findBy (Callback (λ q, limit n (f q))) t
    = (Ok (take (Z.to_nat n) (selected p t)), t)
  ∧ ∀ page pageSize,
      findAllPaginated page pageSize (Callback (λ q, limit n (f q))) t
      = findAllPaginated page pageSize (Callback f) t.
Proof.
  intros Hf Hn.
  destruct (Hf select_) as [(Hk & Hs & _ & Ho & _) Hm].
  destruct (Hf (selectAll select_)) as [(Hk' & Hs' & _ & Ho' & _) Hm'].
  assert (Hcount : count (Callback (λ q, limit n (f q))) t
                   = (Ok (of_Z (Z.of_nat (length (selected p t)))), t)).
  { rewrite (count_of_callback _ p)
      by (assumption || (intros r; change (matches (f select_) r = p r);
                         now rewrite Hm)).
    cbn [limit q_limit q_offset negative from_option id]. rewrite Ho.
    cbn [negative from_option id]. rewrite orb_false_r.
    destruct (Z.ltb_spec n 0); [lia|]. destruct (Z.leb_spec 1 n); [|lia].
    reflexivity. }
  split; [exact Hcount|]. split.
  - unfold findBy. cbn [applyCondition].
    rewrite (execute_select _ p)
      by (assumption || (intros r;
            change (matches (f (selectAll select_)) r = p r);
            now rewrite Hm')).
    unfold window. cbn [limit q_limit q_offset negative]. rewrite Ho'.
    cbn [negative from_option id Z.to_nat drop]. rewrite orb_false_r.
    destruct (Z.ltb_spec n 0); [lia|]. reflexivity.
  - intros page pageSize. unfold findAllPaginated, bind.
    rewrite Hcount, (count_selected (Callback f) p) by exact Hf.
    reflexivity.
Qed.

Lemma count_ignores_a_callback_limit_witness :
  let t : Table := [ {[ "id" := VStr "a"; "value" := VNum 5 ]};
                     {[ "id" := VStr "b"; "value" := VNum 7 ]} ] in
  let f := where_ (value_at_least 5) in
  let p := value_at_least 5 in
  narrows f p ∧ 1 <= 1
  ∧ count (Callback (λ q, limit 1 (f q))) t
    = (Ok (of_Z (Z.of_nat (length (selected p t)))), t)
  ∧ findBy (Callback (λ q, limit 1 (f q))) t
    = (Ok (take (Z.to_nat 1) (selected p t)), t)
  ∧ ∀ page pageSize,
      findAllPaginated page pageSize (Callback (λ q, limit 1 (f q))) t
      = findAllPaginated page pageSize (Callback f) t.
Proof.
  intros t f p. split; [apply narrows_where_|]. split; [lia|].
  apply (count_ignores_a_callback_limit f p 1 t); [apply narrows_where_|lia].
Defined.

(** X22.  [count] destructures the first row of its query without a check:
    under a callback that narrows and then sets LIMIT 0, or an OFFSET of 1
    or more, the COUNT query returns no row and [count] fails with a
    [TypeError], and so does [findAllPaginated], which counts first; the
    table is as before. *)
Theorem count_fails_without_a_row (f : Query → Query) (p : obj → bool)
    (t : Table) :
  narrows f p →
  count (Callback (λ q, limit 0 (f q))) t = (Err TypeError, t)
  ∧ (∀ k, 1 <= k →
          count (Callback (λ q, offset k (f q))) t = (Err TypeError, t))
  ∧ (∀ page pageSize,
       findAllPaginated page pageSize (Callback (λ q, limit 0 (f q))) t
       = (Err TypeError, t)).
Proof.
  intros Hf.
  destruct (Hf select_) as [(Hk & Hs & Hl & Ho & _) Hm].
  assert (Hzero : count (Callback (λ q, limit 0 (f q))) t = (Err TypeError, t)).
  { rewrite (count_of_callback _ p)
      by (assumption || (intros r; change (matches (f select_) r = p r);
                         now rewrite Hm)).
    cbn [limit q_limit q_offset]. now rewrite Ho. }
  split; [exact Hzero|]. split.
  - intros k Hk1.
    rewrite (count_of_callback _ p)
      by (assumption || (intros r; change (matches (f select_) r = p r);
                         now rewrite Hm)).
    cbn [offset q_limit q_offset]. rewrite Hl.
    cbn [negative from_option id orb].
    destruct (Z.ltb_spec k 0); [lia|].
    destruct (Z.eqb_spec k 0); [lia|]. reflexivity.
  - intros page pageSize. unfold findAllPaginated, bind. now rewrite Hzero.
Qed.

Lemma count_fails_without_a_row_witness :
  let t : Table := [ {[ "id" := VStr "a"; "value" := VNum 5 ]} ] in
  let f := where_ (value_at_least 5) in
  let p := value_at_least 5 in
  narrows f p
  ∧ count (Callback (λ q, limit 0 (f q))) t = (Err TypeError, t)
  ∧ (∀ k, 1 <= k →
          count (Callback (λ q, offset k (f q))) t = (Err TypeError, t))
  ∧ (∀ page pageSize,
       findAllPaginated page pageSize (Callback (λ q, limit 0 (f q))) t
       = (Err TypeError, t)).
Proof.
  intros t f p. split; [apply narrows_where_|].
  apply (count_fails_without_a_row f p t). apply narrows_where_.
Defined.

(* ===================================================================== *)
(** ** Ids that are missing, and insertions undone *)
(* ===================================================================== *)

(** X23.  A null or undefined id reaches no row, whatever the table holds:
    [get] returns no row, [delete] fails with "no result", and so does an
    [update] whose item has that id, in particular an item without the key
    ["id"]; the table is as before. *)
Theorem nullish_id_reaches_no_row (id : value) (t : Table) :
  nullish id = true →
  get id t = (Ok None, t)
  ∧ delete id t = (Err NoResultError, t)
  ∧ (∀ now item, get_prop item "id" = id ∨ item !! "id" = None →
                 update now item t = (Err NoResultError, t)).
Proof.
  intros Hid.
  assert (Hnone : ∀ v, nullish v = true → ∀ r, r ∈ t → has_id v r = false)
    by (intros v Hv r _; now apply sql_eq_nullish).
  pose proof (selected_none _ _ (Hnone id Hid)) as Hsel.
  pose proof (rejected_none _ _ (Hnone id Hid)) as Hrej.
  split.
  { rewrite get_selected. fold (has_id id). now rewrite Hsel. }
  split.
  { rewrite delete_selected. fold (has_id id). now rewrite Hsel, Hrej. }
  intros now item Hitem.
  assert (Hv : nullish (get_prop item "id") = true).
  { destruct Hitem as [-> | Hitem]; [exact Hid|].
    unfold get_prop. now rewrite Hitem. }
  pose proof (selected_none _ _ (Hnone _ Hv)) as Hsel'.
  rewrite update_unfold. cbv zeta.
  rewrite Hsel'. cbn [fmap list_fmap head].
  rewrite admissible_nil. f_equal.
  apply fmap_unselected. exact Hsel'.
Qed.

Lemma nullish_id_reaches_no_row_witness :
  let t : Table := [ {[ "id" := VStr "a"; "name" := VStr "foo" ]} ] in
  nullish VNull = true
  ∧ get VNull t = (Ok None, t)
  ∧ delete VNull t = (Err NoResultError, t)
  ∧ (∀ now item, get_prop item "id" = VNull ∨ item !! "id" = None →
                 update now item t = (Err NoResultError, t)).
Proof.
  intros t. split; [reflexivity|].
  apply (nullish_id_reaches_no_row VNull t). reflexivity.
Defined.

(** X24.  [delete] undoes [insert]: when the table accepts the row,
    deleting the id of the record just inserted returns that record and
    leaves the table as it was before the insertion. *)
Theorem delete_undoes_insert (now : Z) (uuid : string) (item : obj)
    (t : Table) :
  nullish (chosen_id uuid item) = false →
  chosen_id uuid item ∉ keys t →
  ∃ rec t',
    insert now uuid item t = (Ok (Some rec), t')
    ∧ delete (chosen_id uuid item) t' = (Ok rec, t).
Proof.
  intros Hproper Hfresh.
  set (rec := defined (insert_values now uuid item)).
  assert (Hkey : key rec = chosen_id uuid item) by apply key_inserted.
  assert (Hrec : has_id (chosen_id uuid item) rec = true)
    by now apply key_has_id.
  pose proof (fresh_not_selected _ t Hfresh) as Hsel.
  exists rec, (t ++ [rec]). split.
  - rewrite insert_unfold. fold rec.
    replace (admissible [rec] t) with true; [reflexivity|].
    symmetry. apply admissible_spec. split; [|split].
    + constructor; [|constructor]. unfold rec.
      rewrite not_null_inserted. now apply negb_true_iff.
    + apply NoDup_singleton.
    + intros v Hv. cbn in Hv. rewrite Hkey in Hv.
      now apply list_elem_of_singleton in Hv as ->.
  - rewrite delete_selected. fold (has_id (chosen_id uuid item)).
    rewrite selected_app, Hsel. cbn [app].
    unfold rejected. rewrite filter_app.
    fold (rejected (has_id (chosen_id uuid item)) t).
    rewrite (rejected_none _ t) by now apply selected_nil_iff.
    unfold selected. rewrite filter_cons_True by exact Hrec.
    rewrite filter_cons_False by (rewrite Hrec; intros H; now apply H).
    rewrite !filter_nil, app_nil_r. reflexivity.
Qed.

Lemma delete_undoes_insert_witness :
  let item : obj := {[ "name" := VStr "foo" ]} in
  let t : Table := [ {[ "id" := VStr "a"; "name" := VStr "bar" ]} ] in
  nullish (chosen_id "3f0c" item) = false
  ∧ (chosen_id "3f0c" item ∉ keys t)
  ∧ ∃ rec t',
      insert 1000 "3f0c" item t = (Ok (Some rec), t')
      ∧ delete (chosen_id "3f0c" item) t' = (Ok rec, t).
Proof.
  intros item t.
  assert (Hproper : nullish (chosen_id "3f0c" item) = false) by reflexivity.
  assert (Hfresh : chosen_id "3f0c" item ∉ keys t).
  { intros H. apply list_elem_of_singleton in H. discriminate. }
  split; [exact Hproper|]. split; [exact Hfresh|].
  apply (delete_undoes_insert 1000 "3f0c" item t Hproper Hfresh).
Defined.
